(** * NFS-e text pipeline of [app.py]: merge, repair, structuring, validation

    A shallow embedding of the text side of [app.py]: the merge of the two
    recognition passes, [corrigir_erros_contextuais], [estruturar_texto],
    [validar_campos] and the page loop of [processar_nfse].

    Python strings are sequences of Unicode code points, so a text is a list
    of code points.  The calls to [re.sub] and [re.search] are modelled by a
    backtracking matcher for the fragment of regular expressions the program
    uses; the rasterizer, OpenCV and the OCR engine are parameters. *)

From Stdlib Require Import String Ascii.
From Stdlib Require Import List NArith Bool Arith Lia.
Import ListNotations.

(** ** Texts *)

Definition char := N.
Definition str := list char.

(** Decoding of a UTF-8 literal (one to three bytes per code point), so that
    the literals of the source can be written as they are. *)
Fixpoint utf8 (s : string) : str :=
  match s with
  | EmptyString => []
  | String a s1 =>
      let b := N_of_ascii a in
      if (b <? 128)%N then b :: utf8 s1
      else
        match s1 with
        | EmptyString => [b]
        | String a2 s2 =>
            let b2 := (N_of_ascii a2 - 128)%N in
            if (b <? 224)%N then ((b - 192) * 64 + b2)%N :: utf8 s2
            else
              match s2 with
              | EmptyString => [b]
              | String a3 s3 =>
                  (((b - 224) * 64 + b2) * 64 + (N_of_ascii a3 - 128))%N
                    :: utf8 s3
              end
        end
  end.

Notation "'u' s" := (utf8 s%string) (at level 9, s at level 0, only parsing).

Definition chr_nl : char := 10%N.
Definition chr_space : char := 32%N.
Definition chr_colon : char := 58%N.

(** [s.startswith(p)] *)
Fixpoint starts_with (p s : str) : bool :=
  match p, s with
  | [], _ => true
  | _ :: _, [] => false
  | a :: p', b :: s' => (a =? b)%N && starts_with p' s'
  end.

(** [p in s] *)
Fixpoint occurs (p s : str) : bool :=
  starts_with p s ||
  match s with
  | [] => false
  | _ :: s' => occurs p s'
  end.

(** [s.replace(old, new)] for a non-empty [old]: a left-to-right scan over
    non-overlapping occurrences; [skip] counts the characters of the current
    occurrence still to be passed over. *)
Fixpoint replace_go (old new s : str) (skip : nat) : str :=
  match s with
  | [] => []
  | c :: s' =>
      match skip with
      | S k => replace_go old new s' k
      | O =>
          if starts_with old s
          then new ++ replace_go old new s' (length old - 1)
          else c :: replace_go old new s' 0
      end
  end.

(** [s.replace(old, new)]; with an empty [old] Python inserts [new] before
    every character and at the end. *)
Definition str_replace (old new s : str) : str :=
  match old with
  | [] => new ++ flat_map (fun c => c :: new) s
  | _ :: _ => replace_go old new s 0
  end.

(** [s.split(sep)] for a non-empty [sep] (Python raises [ValueError] on an
    empty one; the program only passes the constant ['R$']). *)
Fixpoint split_go (sep s : str) (skip : nat) : list str :=
  match s with
  | [] => [[]]
  | c :: s' =>
      match skip with
      | S k => split_go sep s' k
      | O =>
          if starts_with sep s
          then [] :: split_go sep s' (length sep - 1)
          else
            match split_go sep s' 0 with
            | seg :: segs => (c :: seg) :: segs
            | [] => [[c]]
            end
      end
  end.

Definition str_split (sep s : str) : list str := split_go sep s 0.

(** [sep.join(parts)] *)
Fixpoint str_join (sep : str) (parts : list str) : str :=
  match parts with
  | [] => []
  | [p] => p
  | p :: rest => p ++ sep ++ str_join sep rest
  end.

(** ** Merge of the two recognition passes ([processar_nfse], lines 151-157) *)

Definition marcador : str := u"R$".

(** [any(termo in texto for termo in ['R$', 'CNPJ', 'CPF'])] *)
Definition gatilho_numerico (texto : str) : bool :=
  existsb (fun termo => occurs termo texto) [u"R$"; u"CNPJ"; u"CPF"].

(** [texto.replace('R$', texto_numerico.split('R$')[-1])] *)
Definition mesclar (texto texto_numerico : str) : str :=
  str_replace marcador (last (str_split marcador texto_numerico) []) texto.

(** ** Unicode tables consulted by [re]

    [re] decides [\d], [\s] and case-insensitive equality from the Unicode
    database of the interpreter.  The tables are a parameter; what is fixed
    is their behaviour on the Latin-1 range, where every literal of the
    program lives. *)

Definition in_range (lo hi c : char) : bool := ((lo <=? c) && (c <=? hi))%N.

Definition l1_isdecimal (c : char) : bool := in_range 48%N 57%N c.

Definition l1_isspace (c : char) : bool :=
  in_range 9%N 13%N c || in_range 28%N 32%N c || (c =? 133)%N || (c =? 160)%N.

Definition l1_lower (c : char) : char :=
  if in_range 65%N 90%N c || (in_range 192%N 222%N c && negb (c =? 215)%N)
  then (c + 32)%N else c.

Class Unicode := {
  (** [\d]: the code point is a decimal digit *)
  isdecimal : char -> bool;
  (** [\s]: the code point is white space *)
  isspace : char -> bool;
  (** [ci_eq p c]: under [re.IGNORECASE] the text character [c] matches the
      pattern literal [p] *)
  ci_eq : char -> char -> bool;
  isdecimal_latin1 : forall c, (c < 256)%N -> isdecimal c = l1_isdecimal c;
  isspace_latin1 : forall c, (c < 256)%N -> isspace c = l1_isspace c;
  (** no decimal digit is white space *)
  decimal_not_space : forall c, isdecimal c = true -> isspace c = false;
  ci_eq_refl : forall c, ci_eq c c = true;
  ci_eq_latin1 : forall p c, (p < 256)%N -> (c < 256)%N ->
    ci_eq p c = (l1_lower p =? l1_lower c)%N
}.

(** ** The regular expressions of the program

    Every pattern of [app.py] is a sequence of single-character nodes, each
    possibly under a greedy quantifier, with capture groups that are not
    nested. *)

Inductive citem :=
| CChar (c : char)            (* a literal inside [...] *)
| CRange (lo hi : char)       (* lo-hi *)
| CDigit                      (* \d inside [...] *)
| CSpace.                     (* \s inside [...] *)

Inductive node :=
| Lit (c : char)
| Dot                         (* any character but a newline *)
| Digit                       (* \d *)
| Space                       (* \s *)
| Class (items : list citem). (* [...] *)

Inductive atom :=
| One (n : node)
| Rep (n : node) (lo : nat) (hi : option nat).  (* n{lo,hi}, greedy *)

Inductive item :=
| Plain (a : atom)
| Group (g : list atom).      (* ( ... ) *)

Definition regex := list item.

(** The result of a match: its length, [m.group()] and the groups. *)
Record rmatch := { m_len : nat; m_text : str; m_groups : list str }.

(** The replacement argument of [re.sub]: a template with group
    references, or a callable. *)
Inductive tpiece := TText (t : str) | TGroup (i : nat).
Inductive repl := Template (t : list tpiece) | Callable (f : rmatch -> str).

Definition range_chars (lo hi : char) : list char :=
  map N.of_nat (seq (N.to_nat lo) (S (N.to_nat hi) - N.to_nat lo)).

(** Tries [f k], [f (k-1)], ..., [f lo] and keeps the first success: the
    order in which a greedy quantifier gives characters back. *)
Fixpoint first_down {A : Type} (f : nat -> option A) (lo k : nat) : option A :=
  if k <? lo then None
  else
    match f k with
    | Some r => Some r
    | None =>
        match k with
        | O => None
        | S k' => first_down f lo k'
        end
    end.

Definition atoms_of (r : regex) : list atom :=
  flat_map (fun i => match i with Plain a => [a] | Group g => g end) r.

(** The groups, cut out of the text from the lengths consumed per atom. *)
Fixpoint captures (r : regex) (lens : list nat) (s : str) : list str :=
  match r with
  | [] => []
  | Plain _ :: r' =>
      match lens with
      | k :: lens' => captures r' lens' (skipn k s)
      | [] => []
      end
  | Group g :: r' =>
      let n := list_sum (firstn (length g) lens) in
      firstn n s :: captures r' (skipn (length g) lens) (skipn n s)
  end.

Definition expand (rp : repl) (m : rmatch) : str :=
  match rp with
  | Template t =>
      flat_map (fun p => match p with
                         | TText t => t
                         | TGroup i => nth (i - 1) (m_groups m) []
                         end) t
  | Callable f => f m
  end.

Section Matcher.
Context {U : Unicode}.
(** [flags & re.IGNORECASE] *)
Variable ic : bool.

Definition lit_ok (p c : char) : bool :=
  if ic then ci_eq p c else (p =? c)%N.

Definition citem_ok (i : citem) (c : char) : bool :=
  match i with
  | CChar p => lit_ok p c
  | CRange lo hi =>
      if ic then existsb (fun p => ci_eq p c) (range_chars lo hi)
      else in_range lo hi c
  | CDigit => isdecimal c
  | CSpace => isspace c
  end.

Definition node_ok (n : node) (c : char) : bool :=
  match n with
  | Lit p => lit_ok p c
  | Dot => negb (c =? chr_nl)%N
  | Digit => isdecimal c
  | Space => isspace c
  | Class items => existsb (fun i => citem_ok i c) items
  end.

(** The longest run of characters accepted by [n] at the head of [s], not
    longer than the upper bound of the quantifier. *)
Fixpoint run (n : node) (hi : option nat) (s : str) : nat :=
  match s with
  | [] => 0
  | c :: s' =>
      if node_ok n c then
        match hi with
        | Some O => 0
        | Some (S k) => S (run n (Some k) s')
        | None => S (run n None s')
        end
      else 0
  end.

(** Backtracking match of a sequence of atoms at the head of [s]; the
    result lists the number of characters each atom consumed. *)
Fixpoint match_atoms (rs : list atom) (s : str) : option (list nat) :=
  match rs with
  | [] => Some []
  | One n :: rs' =>
      match s with
      | [] => None
      | c :: s' =>
          if node_ok n c
          then option_map (cons 1) (match_atoms rs' s')
          else None
      end
  | Rep n lo hi :: rs' =>
      first_down
        (fun k => option_map (cons k) (match_atoms rs' (skipn k s)))
        lo (run n hi s)
  end.

(** [pattern.match(s)] at the current position *)
Definition match_here (r : regex) (s : str) : option rmatch :=
  match match_atoms (atoms_of r) s with
  | Some lens =>
      let n := list_sum lens in
      Some {| m_len := n; m_text := firstn n s;
              m_groups := captures r lens s |}
  | None => None
  end.

(** [re.search(r, s)] is not [None] *)
Fixpoint re_search (r : regex) (s : str) : bool :=
  match match_here r s with
  | Some _ => true
  | None =>
      match s with
      | [] => false
      | _ :: s' => re_search r s'
      end
  end.

(** The scan of [re.sub]: leftmost matches, not overlapping.  [skip]
    counts the characters of the current match still to be passed over.
    After an empty match the scan copies one character and goes on. *)
Fixpoint sub_go (r : regex) (rp : repl) (s : str) (skip : nat) : str :=
  match s with
  | [] =>
      match skip with
      | O => match match_here r [] with
             | Some m => expand rp m
             | None => []
             end
      | S _ => []
      end
  | c :: s' =>
      match skip with
      | S k => sub_go r rp s' k
      | O =>
          match match_here r s with
          | Some m =>
              expand rp m ++
              match m_len m with
              | O => c :: sub_go r rp s' 0
              | S k => sub_go r rp s' k
              end
          | None => c :: sub_go r rp s' 0
          end
      end
  end.

(** [re.sub(r, rp, s, flags)] *)
Definition re_sub (r : regex) (rp : repl) (s : str) : str :=
  sub_go r rp s 0.
End Matcher.

(** ** Pattern syntax *)

(** A run of literal characters. *)
Definition lits (s : str) : list atom := map (fun c => One (Lit c)) s.
Definition txt (s : str) : regex := map Plain (lits s).

Definition opt (n : node) : atom := Rep n 0 (Some 1).      (* n? *)
Definition star (n : node) : atom := Rep n 0 None.         (* n* *)
Definition plus (n : node) : atom := Rep n 1 None.         (* n+ *)
Definition times (n : node) (k : nat) : atom := Rep n k (Some k).  (* n{k} *)

(** A replacement string without group references. *)
Definition literal (s : str) : repl := Template [TText s].

Definition traco30 : str := u"------------------------------".

(** ** [corrigir_erros_contextuais] *)

(** [A-Z0-9]{8}  ->  lambda m: m.group().replace(' ', '') *)
Definition regra_codigo : regex * repl :=
  ([Plain (times (Class [CRange 65%N 90%N; CRange 48%N 57%N]) 8)],
   Callable (fun m => str_replace u" " [] (m_text m))).

(** 75000  ->  750,00 *)
Definition regra_75000 : regex * repl := (txt u"75000", literal u"750,00").

(** (\d{3})\.?(\d{2})  ->  \1.\2 *)
Definition regra_valores : regex * repl :=
  ([Group [times Digit 3]; Plain (opt (Lit 46%N)); Group [times Digit 2]],
   Template [TGroup 1; TText u"."; TGroup 2]).

Definition correcoes : list (regex * repl) :=
  [ (* Correção de datas *)
    (txt u"05/05/2024", literal u"05/09/2024");
    (txt u"16/0/2024", literal u"16/09/2024");
    (* (\d{2})/(\d{1})/(\d{4})  ->  \1/0\2/\3 *)
    ([Group [times Digit 2]; Plain (One (Lit 47%N)); Group [times Digit 1];
      Plain (One (Lit 47%N)); Group [times Digit 4]],
     Template [TGroup 1; TText u"/0"; TGroup 2; TText u"/"; TGroup 3]);
    (* Código de verificação *)
    (txt u"ESGXBS DE", literal u"B9OXB608");
    regra_codigo;
    (* CNPJ e valores; the dot of 40,621.411/0001-53 is not escaped *)
    (txt u"40,621" ++ [Plain (One Dot)] ++ txt u"411/0001-53",
     literal u"49.621.411/0001-93");
    (* (\d)0(\d{3})  ->  \1.\2 *)
    ([Group [One Digit]; Plain (One (Lit 48%N)); Group [times Digit 3]],
     Template [TGroup 1; TText u"."; TGroup 2]);
    regra_75000;
    regra_valores;
    (* Termos técnicos *)
    (txt u"FLETRÔONICA", literal u"ELETRÔNICA");
    (txt u"Relatorode", literal u"Relatório de");
    (txt u"DISCRIMINAÇÃO DOS SERVIÇÕE", literal u"DISCRIMINAÇÃO DOS SERVIÇOS");
    (* \[BPT *)
    (txt u"[BPT", literal u"IBPT") ].

(** ** [estruturar_texto] *)

(** \n\n\1\n------------------------------ *)
Definition secao : repl :=
  Template [TText [chr_nl; chr_nl]; TGroup 1; TText (chr_nl :: traco30)].

(** \n\1 followed by one space *)
Definition campo_chave : repl :=
  Template [TText [chr_nl]; TGroup 1; TText [chr_space]].

(** group 1: the label and an optional colon; group 2: .* *)
Definition resto_da_linha (rotulo : str) : regex :=
  [Group (lits rotulo ++ [opt (Lit 58%N)]); Group [star Dot]].

Definition rotulo_emissao : str := u"Data e Hora de Emissão".
Definition rotulo_codigo : str := u"Código de Verificação".

(** (\d+)\.\s+([A-Z])  ->  \1. \2 *)
Definition regra_lista : regex * repl :=
  ([Group [plus Digit]; Plain (One (Lit 46%N)); Plain (plus Space);
    Group [One (Class [CRange 65%N 90%N])]],
   Template [TGroup 1; TText u". "; TGroup 2]).

(** R\$\s*(\d)  ->  R$ \1 *)
Definition regra_moeda : regex * repl :=
  (txt u"R$" ++ [Plain (star Space); Group [One Digit]],
   Template [TText u"R$ "; TGroup 1]).

Definition estruturas : list (regex * repl) :=
  [ (* Seções principais *)
    ([Group (lits u"PRESTADOR DE SERVIÇOS")], secao);
    ([Group (lits u"TOMADOR DE SERVIÇOS")], secao);
    ([Group (lits u"DISCRIMINAÇÃO DOS SERVIÇOS")], secao);
    (* Campos chave *)
    (* group 1: Número da Nota:?   group 2: \s* *)
    ([Group (lits u"Número da Nota" ++ [opt (Lit 58%N)]); Group [star Space]],
     campo_chave);
    (* group 1: Data e Hora de Emissão:?   group 2: .* *)
    (resto_da_linha rotulo_emissao, campo_chave);
    (* group 1: Código de Verificação:?   group 2: .* *)
    (resto_da_linha rotulo_codigo, campo_chave);
    (* Formatação de listas *)
    regra_lista;
    regra_moeda ].

(** ** [validar_campos] *)

(** NFS-?e *)
Definition padrao_nfse : regex :=
  txt u"NFS" ++ [Plain (opt (Lit 45%N))] ++ txt u"e".

Definition padrao_nota_fiscal : regex :=
  txt u"NOTA FISCAL DE SERVIÇOS ELETRÔNICA".

(** 49\.?621\.?411/0001-?93 *)
Definition padrao_cnpj : regex :=
  txt u"49" ++ [Plain (opt (Lit 46%N))] ++ txt u"621" ++
  [Plain (opt (Lit 46%N))] ++ txt u"411/0001" ++
  [Plain (opt (Lit 45%N))] ++ txt u"93".

Definition padrao_razao_social : regex := txt u"Sustentamais Consultoria".

(** R\$\s*750[,\d]* *)
Definition padrao_valor_rs : regex :=
  txt u"R$" ++ [Plain (star Space)] ++ txt u"750" ++
  [Plain (star (Class [CChar 44%N; CDigit]))].

(** VALOR TOTAL DA NOTA.*750 *)
Definition padrao_valor_total : regex :=
  txt u"VALOR TOTAL DA NOTA" ++ [Plain (star Dot)] ++ txt u"750".

Definition campos : list (str * list regex) :=
  [ (u"NFS-e", [padrao_nfse; padrao_nota_fiscal]);
    (u"CNPJ Prestador", [padrao_cnpj; padrao_razao_social]);
    (u"Valor Total", [padrao_valor_rs; padrao_valor_total]) ].

(** ** Exceptions *)

(** A computation returns a value or raises an [Exception] whose [str(e)]
    is the message. *)
Inductive result (A : Type) :=
| Ok (a : A)
| Raise (msg : str).
Arguments Ok {A} a.
Arguments Raise {A} msg.

Definition bind {A B : Type} (m : result A) (k : A -> result B) : result B :=
  match m with
  | Ok a => k a
  | Raise e => Raise e
  end.

Notation "x <- m ;; k" := (bind m (fun x => k))
  (at level 61, m at next level, right associativity).

Definition TESSERACT_CONFIG : str := u"
    --oem 3
    --psm 6
    -c preserve_interword_spaces=1
    -l por+eng
    -c tessedit_char_blacklist=®©™•§
".

Section Program.
Context {U : Unicode}.

(** texto = re.sub(padrao, substituicao, texto, flags) *)
Definition aplicar_regra (ic : bool) (regra : regex * repl) (texto : str)
  : str :=
  re_sub ic (fst regra) (snd regra) texto.

(** for padrao, substituicao in regras:
      texto = re.sub(padrao, substituicao, texto, flags) *)
Definition aplicar (ic : bool) (regras : list (regex * repl)) (texto : str)
  : str :=
  fold_left (fun texto regra => aplicar_regra ic regra texto) regras texto.

(** The loop over [correcoes], with [flags=re.IGNORECASE]. *)
Definition corrigir_erros_contextuais (texto : str) : str :=
  aplicar true correcoes texto.

(** The loop over [estruturas], without flags. *)
Definition estruturar_texto (texto : str) : str :=
  aplicar false estruturas texto.

(** not any(re.search(padrao, texto, re.IGNORECASE) for padrao in padroes) *)
Definition campo_ausente (padroes : list regex) (texto : str) : bool :=
  negb (existsb (fun padrao => re_search true padrao texto) padroes).

Definition validar_campos (texto : str) : list str :=
  fold_left (fun faltantes '(campo, padroes) =>
               if campo_ausente padroes texto
               then faltantes ++ [campo]
               else faltantes)
            campos [].

(** One of the acceptable patterns of the field [campo] is found. *)
Definition campo_presente (campo texto : str) : Prop :=
  exists padroes padrao,
    In (campo, padroes) campos /\ In padrao padroes /\
    re_search true padrao texto = true.

(** *** [processar_nfse] *)

Variables Pagina Imagem : Type.
(** pdf2image *)
Variable convert_from_path : str -> result (list Pagina).
(** cv2.cvtColor(np.array(img), cv2.COLOR_RGB2BGR) *)
Variable para_bgr : Pagina -> result Imagem.
(** the four OpenCV calls in the body of [preprocessamento_avancado] *)
Variable cv2_binarizar : Imagem -> result Imagem.
(** pytesseract.image_to_string(img, config=...) *)
Variable image_to_string : Imagem -> str -> result str.

(** The handler of [preprocessamento_avancado] logs and raises again. *)
Definition preprocessamento_avancado (imagem : Imagem) : result Imagem :=
  match cv2_binarizar imagem with
  | Ok r => Ok r
  | Raise e => Raise e
  end.

(** The body of the page loop. *)
Definition processar_pagina (img : Pagina) : result str :=
  img_cv <- para_bgr img ;;
  img_processada <- preprocessamento_avancado img_cv ;;
  texto <- image_to_string img_processada TESSERACT_CONFIG ;;
  texto <- (if gatilho_numerico texto then
              texto_numerico <-
                image_to_string img_processada
                  (TESSERACT_CONFIG ++
                   u" --psm 11 -c tessedit_char_whitelist=0123456789R$.,/") ;;
              Ok (mesclar texto texto_numerico)
            else Ok texto) ;;
  let texto_corrigido := corrigir_erros_contextuais texto in
  let texto_estruturado := estruturar_texto texto_corrigido in
  Ok texto_estruturado.

(** for idx, img in enumerate(imagens): ...; texto_final.append(...) *)
Fixpoint paginas (imagens : list Pagina) (texto_final : list str)
  : result (list str) :=
  match imagens with
  | [] => Ok texto_final
  | img :: resto =>
      texto_estruturado <- processar_pagina img ;;
      paginas resto (texto_final ++ [texto_estruturado])
  end.

(** The pair (status, text) returned by [processar_nfse]. *)
Definition processar_nfse (pdf_path : str) : str * str :=
  match (imagens <- convert_from_path pdf_path ;; paginas imagens []) with
  | Ok texto_final =>
      let texto_unificado := str_join [chr_nl] texto_final in
      let campos_faltantes := validar_campos texto_unificado in
      match campos_faltantes with
      | _ :: _ =>
          (u"ERRO: Campos faltantes - " ++ str_join u", " campos_faltantes,
           texto_unificado)
      | [] => (u"Sucesso", texto_unificado)
      end
  | Raise e => (u"ERRO: " ++ e, [])
  end.
End Program.

(** A table that agrees with the interpreter on Latin-1 texts; it serves
    to evaluate the program on concrete inputs. *)
Definition latin1 : Unicode.
Proof.
  refine {| isdecimal := l1_isdecimal;
            isspace := l1_isspace;
            ci_eq := fun p c => (l1_lower p =? l1_lower c)%N;
            isdecimal_latin1 := fun _ _ => eq_refl;
            isspace_latin1 := fun _ _ => eq_refl;
            decimal_not_space := _;
            ci_eq_refl := fun c => N.eqb_refl (l1_lower c);
            ci_eq_latin1 := fun _ _ _ _ => eq_refl |}.
  intros c H. unfold l1_isdecimal, l1_isspace, in_range in *.
  apply andb_true_iff in H. destruct H as [H1 H2].
  apply N.leb_le in H1. apply N.leb_le in H2.
  replace (c <=? 13)%N with false by (symmetry; apply N.leb_gt; lia).
  replace (c <=? 32)%N with false by (symmetry; apply N.leb_gt; lia).
  replace (c =? 133)%N with false by (symmetry; apply N.eqb_neq; lia).
  replace (c =? 160)%N with false by (symmetry; apply N.eqb_neq; lia).
  rewrite !andb_false_r. reflexivity.
Defined.

(** ** Latin-1 texts and patterns

    On a text and a pattern within Latin-1 the matcher does not depend on
    the table: the checks below say when a computation with [latin1] stands
    for the computation with any table. *)

Definition latin1_text (s : str) : bool := forallb (fun c => (c <? 256)%N) s.

Definition latin1_citem (i : citem) : bool :=
  match i with
  | CChar c => (c <? 256)%N
  | CRange _ hi => (hi <? 256)%N
  | CDigit | CSpace => true
  end.

Definition latin1_node (n : node) : bool :=
  match n with
  | Lit c => (c <? 256)%N
  | Class items => forallb latin1_citem items
  | Dot | Digit | Space => true
  end.

Definition latin1_atom (a : atom) : bool :=
  match a with
  | One n | Rep n _ _ => latin1_node n
  end.

Definition latin1_regex (r : regex) : bool := forallb latin1_atom (atoms_of r).

(** The patterns are within Latin-1, and so are the text and every
    intermediate text of the loop as computed with [latin1]. *)
Fixpoint latin1_trace (ic : bool) (regras : list (regex * repl)) (s : str)
  : bool :=
  latin1_text s &&
  match regras with
  | [] => true
  | (r, rp) :: resto =>
      latin1_regex r &&
      latin1_trace ic resto (re_sub (U:=latin1) ic r rp s)
  end.

Arguments preprocessamento_avancado {Imagem} cv2_binarizar imagem.
Arguments processar_pagina {U Pagina Imagem} para_bgr cv2_binarizar
  image_to_string img.
Arguments paginas {U Pagina Imagem} para_bgr cv2_binarizar image_to_string
  imagens texto_final.
Arguments processar_nfse {U Pagina Imagem} convert_from_path para_bgr
  cv2_binarizar image_to_string pdf_path.

(** A component raises [e] while the page [img] is processed: the colour
    conversion, the pre-processing, the first or the second OCR pass. *)
Inductive pagina_falha {Pagina Imagem : Type}
    (para_bgr : Pagina -> result Imagem)
    (cv2_binarizar : Imagem -> result Imagem)
    (image_to_string : Imagem -> str -> result str)
    (img : Pagina) (e : str) : Prop :=
| falha_conversao :
    para_bgr img = Raise e ->
    pagina_falha para_bgr cv2_binarizar image_to_string img e
| falha_preprocessamento (img_cv : Imagem) :
    para_bgr img = Ok img_cv ->
    preprocessamento_avancado cv2_binarizar img_cv = Raise e ->
    pagina_falha para_bgr cv2_binarizar image_to_string img e
| falha_ocr (img_cv img_processada : Imagem) :
    para_bgr img = Ok img_cv ->
    preprocessamento_avancado cv2_binarizar img_cv = Ok img_processada ->
    image_to_string img_processada TESSERACT_CONFIG = Raise e ->
    pagina_falha para_bgr cv2_binarizar image_to_string img e
| falha_ocr_numerico (img_cv img_processada : Imagem) (texto : str) :
    para_bgr img = Ok img_cv ->
    preprocessamento_avancado cv2_binarizar img_cv = Ok img_processada ->
    image_to_string img_processada TESSERACT_CONFIG = Ok texto ->
    gatilho_numerico texto = true ->
    image_to_string img_processada
      (TESSERACT_CONFIG ++
       u" --psm 11 -c tessedit_char_whitelist=0123456789R$.,/") = Raise e ->
    pagina_falha para_bgr cv2_binarizar image_to_string img e.

(** *** A run on stand-ins for the collaborators

    A page is represented by the text the OCR engine reads on it; the
    engine raises on the page "x". *)
Definition paginas_ab (_ : str) : result (list str) := Ok [u"a"; u"b"].
Definition paginas_ax (_ : str) : result (list str) := Ok [u"a"; u"x"].
Definition sem_efeito (img : str) : result str := Ok img.
Definition ocr_eco (img : str) (_ : str) : result str :=
  if starts_with u"x" img then Raise u"falha" else Ok img.

(** *** Shapes of the texts matched by the two spacing rules *)

Definition chr_dot : char := 46%N.
Definition chr_R : char := 82%N.
Definition chr_dollar : char := 36%N.

(** [A-Z], without flags *)
Definition maiuscula (c : char) : bool := in_range 65%N 90%N c.

(** Digits, a dot, white space and a capital: what (\d+)\.\s+([A-Z])
    matches. *)
Definition forma_lista {U : Unicode} (D W : str) (L : char) : Prop :=
  D <> [] /\ Forall (fun c => isdecimal c = true) D /\
  W <> [] /\ Forall (fun c => isspace c = true) W /\
  maiuscula L = true.

(** Every match of the rule, at any position of the text, is replaced by
    itself. *)
Definition estavel {U : Unicode} (ic : bool) (regra : regex * repl) (x : str)
  : Prop :=
  forall i m, match_here ic (fst regra) (skipn i x) = Some m ->
              expand (snd regra) m = m_text m.

(** The labels of the six rules that insert line breaks. *)
Definition rotulos : list str :=
  [ u"PRESTADOR DE SERVIÇOS"; u"TOMADOR DE SERVIÇOS";
    u"DISCRIMINAÇÃO DOS SERVIÇOS"; u"Número da Nota";
    rotulo_emissao; rotulo_codigo ].

(** White space and a digit: what follows "R$" in a match of
    R\$\s*(\d). *)
Definition forma_moeda {U : Unicode} (W : str) (d : char) : Prop :=
  Forall (fun c => isspace c = true) W /\ isdecimal d = true.


(** *** Names for more rules of the tables *)

(** The rule of a section header: the header is group 1. *)
Definition regra_secao (titulo : str) : regex * repl :=
  ([Group (lits titulo)], secao).

Definition titulos : list str :=
  [ u"PRESTADOR DE SERVIÇOS"; u"TOMADOR DE SERVIÇOS";
    u"DISCRIMINAÇÃO DOS SERVIÇOS" ].

Definition rotulo_numero : str := u"Número da Nota".

(** group 1: the label and an optional colon; group 2: \s* *)
Definition espaco_apos (rotulo : str) : regex :=
  [Group (lits rotulo ++ [opt (Lit 58%N)]); Group [star Space]].

(** *** [main] *)



(** *** Names for more rules of [correcoes] *)

Definition chr_slash : char := 47%N.
Definition chr_zero : char := 48%N.

(** group 1: \d{2}, group 2: \d{1}, group 3: \d{4}, with "/" between them
    ->  \1/0\2/\3 *)
Definition regra_data : regex * repl :=
  ([Group [times Digit 2]; Plain (One (Lit 47%N)); Group [times Digit 1];
    Plain (One (Lit 47%N)); Group [times Digit 4]],
   Template [TGroup 1; TText u"/0"; TGroup 2; TText u"/"; TGroup 3]).

(** group 1: \d, then 0, group 2: \d{3}  ->  \1.\2 *)
Definition regra_milhar : regex * repl :=
  ([Group [One Digit]; Plain (One (Lit 48%N)); Group [times Digit 3]],
   Template [TGroup 1; TText u"."; TGroup 2]).

(** 40,621.411/0001-53 with its dot not escaped  ->  49.621.411/0001-93 *)
Definition regra_cnpj : regex * repl :=
  (txt u"40,621" ++ [Plain (One Dot)] ++ txt u"411/0001-53",
   literal u"49.621.411/0001-93").

(** * Properties *)

(** ** Strings *)

Lemma occurs_cons_false (p : str) (c : char) (s : str) :
  occurs p (c :: s) = false ->
  starts_with p (c :: s) = false /\ occurs p s = false.
Proof.
  simpl occurs at 1. intros H. apply orb_false_iff in H. exact H.
Qed.

(** Without a separator in it, a text is its own single segment. *)
Lemma str_split_absent (sep s : str) :
  occurs sep s = false -> str_split sep s = [s].
Proof.
  unfold str_split. induction s as [|c s IH]; intros H.
  - reflexivity.
  - apply occurs_cons_false in H. destruct H as [Hhd Htl].
    cbn [split_go]. rewrite Hhd, (IH Htl). reflexivity.
Qed.

(** ** The merge *)

(** C1, as the code behaves: for the primary text "Total R$ XXXX" and the
    secondary text "garbage R$ 750,00" the segment after the last marker of
    the secondary text is " 750,00", and the merge puts it in the place of
    the marker: the result is "Total  750,00 XXXX", with the marker gone and
    the rest of the primary text kept. *)
Theorem mesclar_total_750 :
  last (str_split marcador u"garbage R$ 750,00") [] = u" 750,00" /\
  mesclar u"Total R$ XXXX" u"garbage R$ 750,00" = u"Total  750,00 XXXX".
Proof. split; reflexivity. Qed.

(** C1 as stated fails: the merge does not yield "Total R$ 750,00". *)
Lemma mesclar_total_750_not_claimed :
  mesclar u"Total R$ XXXX" u"garbage R$ 750,00" <> u"Total R$ 750,00".
Proof. vm_compute. discriminate. Qed.

(** C5 as stated fails: with the primary text "Valor R$ 10" and the
    secondary text "750,00" the merge gives "Valor 750,00 10", not the
    primary text with "750,00" appended after a marker left in place. *)
Lemma mesclar_sem_marcador_not_appended :
  occurs marcador u"Valor R$ 10" = true /\
  occurs marcador u"750,00" = false /\
  mesclar u"Valor R$ 10" u"750,00" = u"Valor 750,00 10" /\
  mesclar u"Valor R$ 10" u"750,00" <> u"Valor R$750,00 10".
Proof.
  repeat split; try reflexivity. vm_compute. discriminate.
Qed.

(** ** The matcher *)

Lemma first_down_hit {A : Type} (f : nat -> option A) (lo k : nat) (r : A) :
  lo <= k -> f k = Some r -> first_down f lo k = Some r.
Proof.
  intros Hle Hf. destruct k; cbn [first_down].
  - destruct (Nat.ltb_spec 0 lo); [lia|]. rewrite Hf. reflexivity.
  - destruct (Nat.ltb_spec (S k) lo); [lia|]. rewrite Hf. reflexivity.
Qed.

Lemma first_down_inv {A : Type} (f : nat -> option A) (lo k : nat) (r : A) :
  first_down f lo k = Some r ->
  exists j, lo <= j <= k /\ f j = Some r /\
            forall i, j < i <= k -> f i = None.
Proof.
  induction k as [|k IH]; cbn [first_down].
  - destruct (Nat.ltb_spec 0 lo); [discriminate|].
    destruct (f 0) eqn:E; [|discriminate].
    intros [= <-]. exists 0. repeat split; auto; lia.
  - destruct (Nat.ltb_spec (S k) lo); [discriminate|].
    destruct (f (S k)) eqn:E.
    + intros [= <-]. exists (S k). repeat split; auto; lia.
    + intros Hk. destruct (IH Hk) as (j & Hj & Hfj & Hno).
      exists j. repeat split; try lia; auto.
      intros i Hi. destruct (Nat.eq_dec i (S k)) as [->|]; [exact E|].
      apply Hno. lia.
Qed.

Lemma list_sum_cons (k : nat) (l : list nat) :
  list_sum (k :: l) = k + list_sum l.
Proof. reflexivity. Qed.

Section MatcherFacts.
Context {U : Unicode}.
Variable ic : bool.

Lemma run_le (n : node) (hi : option nat) (s : str) :
  run ic n hi s <= length s.
Proof.
  revert hi. induction s as [|c s IH]; intros hi; cbn [run length].
  - lia.
  - destruct (node_ok ic n c); [|lia].
    destruct hi as [[|h]|]; [lia | specialize (IH (Some h)); lia
                            | specialize (IH None); lia].
Qed.

(** Every character of the run is accepted by the node. *)
Lemma run_accepts (n : node) (hi : option nat) (s : str) (k : nat) :
  k <= run ic n hi s ->
  Forall (fun c => node_ok ic n c = true) (firstn k s).
Proof.
  revert hi k. induction s as [|c s IH]; intros hi k Hk.
  - rewrite firstn_nil. constructor.
  - destruct k as [|k]; [constructor|]. cbn [firstn].
    cbn [run] in Hk. destruct (node_ok ic n c) eqn:E; [|lia].
    constructor; [exact E|].
    destruct hi as [[|h]|]; [lia | apply (IH (Some h)); lia
                            | apply (IH None); lia].
Qed.

(** A match never runs past the end of the text. *)
Lemma match_atoms_le (rs : list atom) (s : str) (lens : list nat) :
  match_atoms ic rs s = Some lens -> list_sum lens <= length s.
Proof.
  revert s lens. induction rs as [|a rs IH]; intros s lens; cbn [match_atoms].
  - intros [= <-]. cbn. lia.
  - destruct a as [n|n lo hi].
    + destruct s as [|c s]; [discriminate|].
      destruct (node_ok ic n c); [|discriminate].
      destruct (match_atoms ic rs s) as [l|] eqn:E; [|discriminate].
      intros [= <-]. apply IH in E. rewrite list_sum_cons. cbn [length]. lia.
    + intros H. apply first_down_inv in H.
      destruct H as (j & [_ Hj] & Hf & _).
      destruct (match_atoms ic rs (skipn j s)) as [l|] eqn:E; [|discriminate].
      injection Hf as <-. apply IH in E. rewrite length_skipn in E.
      pose proof (run_le n hi s). rewrite list_sum_cons. lia.
Qed.

Lemma match_here_le (r : regex) (s : str) (m : rmatch) :
  match_here ic r s = Some m -> m_len m <= length s.
Proof.
  unfold match_here.
  destruct (match_atoms ic (atoms_of r) s) as [lens|] eqn:E; [|discriminate].
  intros [= <-]. cbn. eapply match_atoms_le; eassumption.
Qed.

Lemma match_here_text (r : regex) (s : str) (m : rmatch) :
  match_here ic r s = Some m -> m_text m = firstn (m_len m) s.
Proof.
  unfold match_here.
  destruct (match_atoms ic (atoms_of r) s); [|discriminate].
  intros [= <-]. reflexivity.
Qed.

(** *** The scan of [re.sub] *)

(** Passing over the rest of a match is the same as going on after it. *)
Lemma sub_go_skip (r : regex) (rp : repl) (s : str) (k : nat) :
  k <= length s ->
  sub_go ic r rp s k = sub_go ic r rp (skipn k s) 0.
Proof.
  revert k. induction s as [|c s IH]; intros k Hk.
  - cbn [length] in Hk. replace k with 0 by lia. reflexivity.
  - destruct k as [|k]; [reflexivity|].
    cbn [sub_go skipn]. apply IH. cbn [length] in Hk. lia.
Qed.

(** At a position where the pattern matches a non-empty text. *)
Lemma sub_go_match (r : regex) (rp : repl) (s : str) (m : rmatch) :
  match_here ic r s = Some m -> 0 < m_len m ->
  sub_go ic r rp s 0 = expand rp m ++ sub_go ic r rp (skipn (m_len m) s) 0.
Proof.
  intros Hm Hpos. pose proof (match_here_le _ _ _ Hm) as Hle.
  destruct s as [|c s]; [cbn [length] in Hle; lia|].
  cbn [sub_go]. rewrite Hm.
  destruct (m_len m) as [|k] eqn:E; [lia|].
  cbn [skipn]. rewrite sub_go_skip; [reflexivity|].
  cbn [length] in Hle. lia.
Qed.

(** At a position where the pattern does not match. *)
Lemma sub_go_miss (r : regex) (rp : repl) (c : char) (s : str) :
  match_here ic r (c :: s) = None ->
  sub_go ic r rp (c :: s) 0 = c :: sub_go ic r rp s 0.
Proof. intros H. cbn [sub_go]. rewrite H. reflexivity. Qed.

(** A prefix in which no match starts is copied. *)
Lemma sub_go_prefix (r : regex) (rp : repl) (pre rest : str) :
  (forall i, i < length pre ->
             match_here ic r (skipn i (pre ++ rest)) = None) ->
  sub_go ic r rp (pre ++ rest) 0 = pre ++ sub_go ic r rp rest 0.
Proof.
  induction pre as [|c pre IH]; intros H; [reflexivity|].
  cbn [app]. rewrite sub_go_miss.
  - f_equal. apply IH. intros i Hi. apply (H (S i)). cbn [length]. lia.
  - apply (H 0). cbn [length]. lia.
Qed.

(** When every match is replaced by the text it matched, the
    substitution changes nothing. *)
Lemma sub_go_copy (r : regex) (rp : repl) (s : str) :
  (forall i m, match_here ic r (skipn i s) = Some m ->
               expand rp m = m_text m) ->
  re_sub ic r rp s = s.
Proof.
  unfold re_sub.
  assert (G : forall k, k <= length s ->
            (forall i m, match_here ic r (skipn i s) = Some m ->
                         expand rp m = m_text m) ->
            sub_go ic r rp s k = skipn k s).
  { induction s as [|c s IH]; intros k Hk H.
    - cbn [length] in Hk. replace k with 0 by lia. cbn [sub_go skipn].
      destruct (match_here ic r []) as [m|] eqn:E; [|reflexivity].
      rewrite (H 0 m E), (match_here_text _ _ _ E). apply firstn_nil.
    - assert (Htl : forall i m, match_here ic r (skipn i s) = Some m ->
                                expand rp m = m_text m).
      { intros i m. apply (H (S i) m). }
      destruct k as [|k].
      + cbn [sub_go skipn].
        destruct (match_here ic r (c :: s)) as [m|] eqn:E.
        * rewrite (H 0 m E), (match_here_text _ _ _ E).
          pose proof (match_here_le _ _ _ E) as Hle. cbn [length] in Hle.
          destruct (m_len m) as [|j].
          -- cbn [firstn app]. f_equal. apply (IH 0); [lia|exact Htl].
          -- cbn [firstn app]. f_equal. rewrite (IH j); [|lia|exact Htl].
             apply firstn_skipn.
        * f_equal. apply (IH 0); [lia|exact Htl].
      + cbn [sub_go skipn]. apply IH; [cbn [length] in Hk; lia|exact Htl]. }
  intros H. apply (G 0); [lia|exact H].
Qed.

(** *** [re.search] *)

Lemma re_search_here (r : regex) (s : str) (m : rmatch) :
  match_here ic r s = Some m -> re_search ic r s = true.
Proof. intros H. destruct s; cbn [re_search]; rewrite H; reflexivity. Qed.

Lemma re_search_skipn (r : regex) (s : str) (i : nat) :
  re_search ic r (skipn i s) = true -> re_search ic r s = true.
Proof.
  revert i. induction s as [|c s IH]; intros i H.
  - rewrite skipn_nil in H. exact H.
  - destruct i as [|i]; [exact H|]. cbn [skipn] in H.
    cbn [re_search]. destruct (match_here ic r (c :: s)); [reflexivity|].
    eapply IH; eassumption.
Qed.

Lemma re_search_false (r : regex) (s : str) (i : nat) :
  re_search ic r s = false -> match_here ic r (skipn i s) = None.
Proof.
  intros H. destruct (match_here ic r (skipn i s)) as [m|] eqn:E;
    [|reflexivity].
  apply re_search_here in E. apply re_search_skipn in E. congruence.
Qed.

(** A pattern that is found nowhere leaves the text as it is. *)
Lemma re_sub_absent (r : regex) (rp : repl) (s : str) :
  re_search ic r s = false -> re_sub ic r rp s = s.
Proof.
  intros H. apply sub_go_copy. intros i m Hm.
  rewrite (re_search_false _ _ i H) in Hm. discriminate.
Qed.
End MatcherFacts.

(** ** Independence from the table on Latin-1 texts *)

Lemma latin1_text_skipn (k : nat) (s : str) :
  latin1_text s = true -> latin1_text (skipn k s) = true.
Proof.
  revert k. induction s as [|c s IH]; intros [|k] H; auto.
  cbn [skipn]. apply IH. cbn in H. apply andb_true_iff in H. apply H.
Qed.

Lemma range_chars_le (lo hi p : char) :
  In p (range_chars lo hi) -> (p <= hi)%N.
Proof.
  unfold range_chars. intros H. apply in_map_iff in H.
  destruct H as (x & <- & Hx). apply in_seq in Hx. lia.
Qed.

Lemma existsb_ext_in {A : Type} (f g : A -> bool) (l : list A) :
  (forall x, In x l -> f x = g x) -> existsb f l = existsb g l.
Proof.
  induction l as [|a l IH]; intros H; [reflexivity|].
  cbn [existsb]. rewrite (H a (or_introl eq_refl)), IH; [reflexivity|].
  intros x Hx. apply H. right. exact Hx.
Qed.

Section Latin1.
Context {U : Unicode}.
Variable ic : bool.

Lemma citem_ok_latin1 (i : citem) (c : char) :
  latin1_citem i = true -> (c < 256)%N ->
  citem_ok (U:=U) ic i c = citem_ok (U:=latin1) ic i c.
Proof.
  intros Hi Hc. destruct i as [p|lo hi| |]; cbn [citem_ok latin1_citem] in *.
  - unfold lit_ok. destruct ic; [|reflexivity].
    apply N.ltb_lt in Hi. apply ci_eq_latin1; assumption.
  - destruct ic; [|reflexivity]. apply N.ltb_lt in Hi.
    apply existsb_ext_in. intros p Hp. apply range_chars_le in Hp.
    apply ci_eq_latin1; [lia|assumption].
  - apply isdecimal_latin1; assumption.
  - apply isspace_latin1; assumption.
Qed.

Lemma node_ok_latin1 (n : node) (c : char) :
  latin1_node n = true -> (c < 256)%N ->
  node_ok (U:=U) ic n c = node_ok (U:=latin1) ic n c.
Proof.
  intros Hn Hc. destruct n as [p| | | |items]; cbn [node_ok latin1_node] in *.
  - unfold lit_ok. destruct ic; [|reflexivity].
    apply N.ltb_lt in Hn. apply ci_eq_latin1; assumption.
  - reflexivity.
  - apply isdecimal_latin1; assumption.
  - apply isspace_latin1; assumption.
  - apply existsb_ext_in. intros i Hi. apply citem_ok_latin1; [|assumption].
    rewrite forallb_forall in Hn. apply Hn. exact Hi.
Qed.

Lemma run_latin1 (n : node) (hi : option nat) (s : str) :
  latin1_node n = true -> latin1_text s = true ->
  run (U:=U) ic n hi s = run (U:=latin1) ic n hi s.
Proof.
  intros Hn. revert hi. induction s as [|c s IH]; intros hi Hs;
    [reflexivity|].
  cbn in Hs. apply andb_true_iff in Hs. destruct Hs as [Hc Hs].
  apply N.ltb_lt in Hc. cbn [run]. rewrite (node_ok_latin1 n c Hn Hc).
  destruct (node_ok ic n c); [|reflexivity].
  destruct hi as [[|h]|]; [reflexivity| |]; f_equal; apply IH; exact Hs.
Qed.

Lemma match_atoms_latin1 (rs : list atom) (s : str) :
  forallb latin1_atom rs = true -> latin1_text s = true ->
  match_atoms (U:=U) ic rs s = match_atoms (U:=latin1) ic rs s.
Proof.
  revert s. induction rs as [|a rs IH]; intros s Hr Hs; [reflexivity|].
  cbn [forallb] in Hr. apply andb_true_iff in Hr. destruct Hr as [Ha Hr].
  destruct a as [n|n lo hi]; cbn [match_atoms latin1_atom] in *.
  - destruct s as [|c s]; [reflexivity|].
    cbn in Hs. apply andb_true_iff in Hs. destruct Hs as [Hc Hs].
    apply N.ltb_lt in Hc. rewrite (node_ok_latin1 n c Ha Hc).
    rewrite (IH s Hr Hs). reflexivity.
  - rewrite (run_latin1 n hi s Ha Hs).
    induction (run ic n hi s) as [|k IHk]; cbn [first_down];
      rewrite (IH _ Hr (latin1_text_skipn _ s Hs)); [reflexivity|].
    rewrite IHk. reflexivity.
Qed.

Lemma match_here_latin1 (r : regex) (s : str) :
  latin1_regex r = true -> latin1_text s = true ->
  match_here (U:=U) ic r s = match_here (U:=latin1) ic r s.
Proof.
  intros Hr Hs. unfold match_here.
  rewrite (match_atoms_latin1 _ s Hr Hs). reflexivity.
Qed.

Lemma re_search_latin1 (r : regex) (s : str) :
  latin1_regex r = true -> latin1_text s = true ->
  re_search (U:=U) ic r s = re_search (U:=latin1) ic r s.
Proof.
  intros Hr. induction s as [|c s IH]; intros Hs; cbn [re_search];
    rewrite (match_here_latin1 r _ Hr Hs); [reflexivity|].
  destruct (match_here ic r (c :: s)); [reflexivity|].
  apply IH. cbn in Hs. apply andb_true_iff in Hs. apply Hs.
Qed.

Lemma sub_go_latin1 (r : regex) (rp : repl) (s : str) (k : nat) :
  latin1_regex r = true -> latin1_text s = true ->
  sub_go (U:=U) ic r rp s k = sub_go (U:=latin1) ic r rp s k.
Proof.
  intros Hr. revert k. induction s as [|c s IH]; intros k Hs; cbn [sub_go].
  - destruct k; [|reflexivity].
    rewrite (match_here_latin1 r _ Hr Hs). reflexivity.
  - assert (Hs' : latin1_text s = true).
    { cbn in Hs. apply andb_true_iff in Hs. apply Hs. }
    destruct k as [|k]; [|apply IH; exact Hs'].
    rewrite (match_here_latin1 r _ Hr Hs).
    destruct (match_here ic r (c :: s)) as [m|]; [|f_equal; apply IH, Hs'].
    f_equal. destruct (m_len m); [f_equal|]; apply IH; exact Hs'.
Qed.

(** A loop of substitutions whose texts stay within Latin-1 can be
    computed with [latin1]. *)
Lemma aplicar_latin1 (regras : list (regex * repl)) (s : str) :
  latin1_trace ic regras s = true ->
  aplicar (U:=U) ic regras s = aplicar (U:=latin1) ic regras s.
Proof.
  unfold aplicar, aplicar_regra, re_sub. revert s.
  induction regras as [|[r rp] regras IH]; intros s H; [reflexivity|].
  cbn [latin1_trace] in H. apply andb_true_iff in H. destruct H as [Hs H].
  apply andb_true_iff in H. destruct H as [Hr H].
  cbn [fold_left fst snd]. rewrite (sub_go_latin1 r rp s 0 Hr Hs).
  apply IH. exact H.
Qed.
End Latin1.

(** ** The repair rules *)

(** C8: the order of the repair rules matters.  On the text "75000" the
    literal rule 75000 -> 750,00 followed by the value-format rule gives
    "750,00", the two rules in the reverse order give "750.00"; the same
    holds for the whole of [corrigir_erros_contextuais] against the list of
    rules with these two exchanged. *)
Theorem ordem_das_correcoes_importa {U : Unicode} :
  exists texto : str,
    aplicar true [regra_75000; regra_valores] texto = u"750,00" /\
    aplicar true [regra_valores; regra_75000] texto = u"750.00" /\
    aplicar true [regra_75000; regra_valores] texto <>
    aplicar true [regra_valores; regra_75000] texto /\
    correcoes =
      firstn 7 correcoes ++ [regra_75000; regra_valores] ++ skipn 9 correcoes /\
    corrigir_erros_contextuais texto <>
    aplicar true
      (firstn 7 correcoes ++ [regra_valores; regra_75000] ++ skipn 9 correcoes)
      texto.
Proof.
  exists (u"75000"). unfold corrigir_erros_contextuais.
  rewrite !(aplicar_latin1 (U:=U)) by (vm_compute; reflexivity).
  repeat split; try reflexivity; vm_compute; discriminate.
Qed.

Lemma str_replace_no_space (t : str) :
  ~ In chr_space t -> str_replace [chr_space] [] t = t.
Proof.
  cbn [str_replace]. induction t as [|c t IH]; intros H; [reflexivity|].
  cbn [replace_go starts_with].
  destruct (N.eqb_spec chr_space c) as [E|_].
  - exfalso. apply H. left. symmetry. exact E.
  - cbn [andb]. f_equal. apply IH. intros Hin. apply H. right. exact Hin.
Qed.

(** The class [A-Z0-9], also when case is ignored, rejects the space. *)
Lemma codigo_rejects_space {U : Unicode} :
  node_ok true (Class [CRange 65%N 90%N; CRange 48%N 57%N]) chr_space = false.
Proof.
  rewrite (node_ok_latin1 (U:=U)) by reflexivity. reflexivity.
Qed.

(** What [[A-Z0-9]{8}] matches is made of characters of the class. *)
Lemma match_codigo_text {U : Unicode} (s : str) (m : rmatch) :
  match_here true (fst regra_codigo) s = Some m ->
  Forall (fun c => node_ok true (Class [CRange 65%N 90%N; CRange 48%N 57%N]) c
                   = true) (m_text m).
Proof.
  unfold match_here. cbn [regra_codigo fst atoms_of flat_map app].
  unfold times. cbn [match_atoms option_map].
  match goal with
  | |- context [first_down ?f ?lo ?k] =>
      destruct (first_down f lo k) as [lens|] eqn:E; [|discriminate]
  end.
  intros [= <-]. cbn [m_text m_len].
  apply first_down_inv in E. destruct E as (j & [_ Hj] & Hf & _).
  injection Hf as <-. rewrite list_sum_cons. cbn [list_sum fold_right].
  rewrite Nat.add_0_r. eapply run_accepts. exact Hj.
Qed.

(** C9: the rule that replaces a match of [[A-Z0-9]{8}] by the match with
    its spaces removed changes no text: what the pattern matches holds no
    space, so the callable returns the match as it is. *)
Theorem regra_codigo_identidade {U : Unicode} (texto : str) :
  (forall s m, match_here true (fst regra_codigo) s = Some m ->
               ~ In chr_space (m_text m) /\
               expand (snd regra_codigo) m = m_text m) /\
  aplicar true [regra_codigo] texto = texto.
Proof.
  assert (G : forall s m, match_here true (fst regra_codigo) s = Some m ->
                          ~ In chr_space (m_text m) /\
                          expand (snd regra_codigo) m = m_text m).
  { intros s m Hm. apply match_codigo_text in Hm.
    assert (Hno : ~ In chr_space (m_text m)).
    { intros Hin. rewrite Forall_forall in Hm. apply Hm in Hin.
      rewrite codigo_rejects_space in Hin. discriminate. }
    split; [exact Hno|]. cbn [regra_codigo snd expand].
    apply str_replace_no_space. exact Hno. }
  split; [exact G|].
  unfold aplicar, aplicar_regra. cbn [fold_left].
  apply sub_go_copy. intros i m Hm. apply (G _ _ Hm).
Qed.

(** ** The validator *)

Lemma starts_with_app (p s : str) :
  starts_with p s = true -> exists rest, s = p ++ rest.
Proof.
  revert s. induction p as [|a p IH]; intros s H.
  - exists s. reflexivity.
  - destruct s as [|b s]; [discriminate|]. cbn [starts_with] in H.
    apply andb_true_iff in H. destruct H as [Hab Hp].
    apply N.eqb_eq in Hab. subst b.
    destruct (IH s Hp) as [rest ->]. exists rest. reflexivity.
Qed.

Lemma occurs_split (p s : str) :
  occurs p s = true -> exists pre rest, s = pre ++ p ++ rest.
Proof.
  induction s as [|c s IH]; cbn [occurs]; intros H.
  - rewrite orb_false_r in H. apply starts_with_app in H.
    destruct H as [rest ->]. exists [], rest. reflexivity.
  - apply orb_true_iff in H. destruct H as [H|H].
    + apply starts_with_app in H. destruct H as [rest ->].
      exists [], rest. reflexivity.
    + destruct (IH H) as (pre & rest & ->). exists (c :: pre), rest.
      reflexivity.
Qed.

Lemma first_down_none_inv {A : Type} (f : nat -> option A) (lo k : nat) :
  first_down f lo k = None -> forall j, lo <= j <= k -> f j = None.
Proof.
  induction k as [|k IH]; cbn [first_down]; intros H j Hj.
  - destruct (Nat.ltb_spec 0 lo); [lia|].
    replace j with 0 by lia. destruct (f 0); [discriminate|reflexivity].
  - destruct (Nat.ltb_spec (S k) lo); [lia|].
    destruct (f (S k)) eqn:E; [discriminate|].
    destruct (Nat.eq_dec j (S k)) as [->|]; [exact E|].
    apply IH; [exact H|lia].
Qed.

Lemma atoms_of_app (r1 r2 : regex) :
  atoms_of (r1 ++ r2) = atoms_of r1 ++ atoms_of r2.
Proof. unfold atoms_of. apply flat_map_app. Qed.

Lemma atoms_of_txt (s : str) : atoms_of (txt s) = lits s.
Proof.
  unfold txt, lits. induction s as [|c s IH]; [reflexivity|].
  cbn [map atoms_of flat_map app]. f_equal. exact IH.
Qed.

Section ValidatorFacts.
Context {U : Unicode}.

Lemma lit_ok_same (ic : bool) (c : char) : lit_ok ic c c = true.
Proof. unfold lit_ok. destruct ic; [apply ci_eq_refl|apply N.eqb_refl]. Qed.

(** A run of literals matches itself, whatever the flag. *)
Lemma match_atoms_lits (ic : bool) (p : str) (rs : list atom) (s : str) :
  match_atoms ic rs s <> None ->
  match_atoms ic (lits p ++ rs) (p ++ s) <> None.
Proof.
  intros H. induction p as [|c p IH]; [exact H|].
  cbn [lits map app match_atoms node_ok]. rewrite lit_ok_same.
  fold (lits p). destruct (match_atoms ic (lits p ++ rs) (p ++ s));
    [discriminate|contradiction].
Qed.

(** A quantified node may stop after any [j] characters of its run,
    provided the rest of the pattern matches from there. *)
Lemma match_atoms_rep (ic : bool) (n : node) (lo : nat) (hi : option nat)
      (rs : list atom) (s : str) (j : nat) :
  lo <= j <= run ic n hi s ->
  match_atoms ic rs (skipn j s) <> None ->
  match_atoms ic (Rep n lo hi :: rs) s <> None.
Proof.
  intros Hj Hrest. cbn [match_atoms]. intros Hnone.
  apply (first_down_none_inv _ _ _ Hnone j) in Hj.
  destruct (match_atoms ic rs (skipn j s)); [discriminate|contradiction].
Qed.

Lemma re_search_at (ic : bool) (r : regex) (pre s : str) :
  match_atoms ic (atoms_of r) s <> None ->
  re_search ic r (pre ++ s) = true.
Proof.
  intros H. apply (re_search_skipn ic r (pre ++ s) (length pre)).
  rewrite skipn_app, skipn_all, Nat.sub_diag. cbn [app skipn].
  destruct (match_here ic r s) as [m|] eqn:E.
  - eapply re_search_here. exact E.
  - unfold match_here in E.
    destruct (match_atoms ic (atoms_of r) s); [discriminate|contradiction].
Qed.

(** The text "R$ 750,00" is found by the first pattern of the field
    'Valor Total'. *)
Lemma valor_rs_750 (texto : str) :
  occurs u"R$ 750,00" texto = true ->
  re_search true padrao_valor_rs texto = true.
Proof.
  intros H. apply occurs_split in H. destruct H as (pre & rest & ->).
  apply re_search_at. unfold padrao_valor_rs.
  rewrite !atoms_of_app, !atoms_of_txt.
  change (u"R$ 750,00") with (u"R$" ++ chr_space :: u"750" ++ u",00").
  rewrite <- !app_assoc. apply match_atoms_lits.
  cbn [atoms_of flat_map app]. unfold star.
  apply (match_atoms_rep _ _ _ _ _ _ 1).
  - cbn [run node_ok]. rewrite isspace_latin1 by reflexivity.
    cbn. destruct (isspace 55%N); cbn; lia.
  - cbn [skipn]. rewrite <- app_assoc. apply match_atoms_lits.
    apply (match_atoms_rep _ _ _ _ _ _ 0); [lia|]. cbn. discriminate.
Qed.

Lemma faltantes_fold (texto : str) (l : list (str * list regex))
      (acc : list str) :
  fold_left (fun faltantes '(campo, padroes) =>
               if campo_ausente padroes texto
               then faltantes ++ [campo]
               else faltantes) l acc =
  acc ++ map fst (filter (fun cp => campo_ausente (snd cp) texto) l).
Proof.
  revert acc. induction l as [|[campo padroes] l IH]; intros acc.
  - cbn. rewrite app_nil_r. reflexivity.
  - cbn [fold_left filter snd]. rewrite IH.
    destruct (campo_ausente padroes texto); [|reflexivity].
    cbn [map fst]. rewrite <- app_assoc. reflexivity.
Qed.

(** The missing fields are the fields none of whose patterns is found,
    in the order of the table. *)
Lemma validar_campos_filter (texto : str) :
  validar_campos texto =
  map fst (filter (fun cp => campo_ausente (snd cp) texto) campos).
Proof. unfold validar_campos. apply faltantes_fold. Qed.

Lemma campo_presente_row (campo : str) (padroes : list regex) (texto : str) :
  NoDup (map fst campos) -> In (campo, padroes) campos ->
  (campo_presente campo texto <-> campo_ausente padroes texto = false).
Proof.
  intros Hnd Hin. unfold campo_presente, campo_ausente.
  rewrite negb_false_iff, existsb_exists. split.
  - intros (ps & p & Hin' & Hp & Hs).
    assert (ps = padroes) as ->.
    { clear Hp Hs. revert Hnd Hin Hin'.
      induction campos as [|[c q] l IH]; cbn [map fst In]; [tauto|].
      intros Hnd [E|Hin] [E'|Hin'].
      - congruence.
      - injection E as -> ->. inversion Hnd as [|? ? Hno _]; subst.
        exfalso. apply Hno. apply in_map_iff.
        exists (campo, ps). split; [reflexivity|exact Hin'].
      - injection E' as -> ->. inversion Hnd as [|? ? Hno _]; subst.
        exfalso. apply Hno. apply in_map_iff.
        exists (campo, padroes). split; [reflexivity|exact Hin].
      - inversion Hnd; subst. apply IH; assumption. }
    exists p. split; assumption.
  - intros (p & Hp & Hs). exists padroes, p. repeat split; assumption.
Qed.
End ValidatorFacts.

Lemma campos_nomes_distintos : NoDup (map fst campos).
Proof.
  vm_compute. repeat constructor; cbn; intros H;
    repeat (destruct H as [H|H]; [discriminate|]); exact H.
Qed.

(** C6: a text in which an acceptable pattern of the document-type field
    and an acceptable pattern of the provider field are found, and which
    contains "R$ 750,00", has no missing field. *)
Theorem validar_campos_completo {U : Unicode} (texto : str) :
  campo_presente u"NFS-e" texto ->
  campo_presente u"CNPJ Prestador" texto ->
  occurs u"R$ 750,00" texto = true ->
  validar_campos texto = [].
Proof.
  intros H1 H2 H3. rewrite validar_campos_filter.
  apply (campo_presente_row _ [padrao_nfse; padrao_nota_fiscal] _
           campos_nomes_distintos) in H1; [|cbn; auto].
  apply (campo_presente_row _ [padrao_cnpj; padrao_razao_social] _
           campos_nomes_distintos) in H2; [|cbn; auto].
  apply valor_rs_750 in H3.
  cbn [campos filter snd]. rewrite H1, H2.
  unfold campo_ausente at 1. cbn [existsb]. rewrite H3. reflexivity.
Qed.

Lemma validar_campos_completo_witness :
  (campo_presente (U:=latin1) u"NFS-e" u"NFS-e 49.621.411/0001-93 R$ 750,00" /\
   campo_presente (U:=latin1) u"CNPJ Prestador"
     u"NFS-e 49.621.411/0001-93 R$ 750,00" /\
   occurs u"R$ 750,00" u"NFS-e 49.621.411/0001-93 R$ 750,00" = true) /\
  validar_campos (U:=latin1) u"NFS-e 49.621.411/0001-93 R$ 750,00" = [].
Proof.
  assert (H1 : campo_presente (U:=latin1) u"NFS-e"
                 u"NFS-e 49.621.411/0001-93 R$ 750,00").
  { exists [padrao_nfse; padrao_nota_fiscal], padrao_nfse.
    repeat split; [left; reflexivity | left; reflexivity]. }
  assert (H2 : campo_presente (U:=latin1) u"CNPJ Prestador"
                 u"NFS-e 49.621.411/0001-93 R$ 750,00").
  { exists [padrao_cnpj; padrao_razao_social], padrao_cnpj.
    repeat split; [right; left; reflexivity | left; reflexivity]. }
  split; [repeat split; [exact H1 | exact H2]|].
  exact (validar_campos_completo (U:=latin1) _ H1 H2 eq_refl).
Defined.

(** C7: a text in which an acceptable pattern of the document-type field
    and one of the provider field are found, and no acceptable pattern of
    the total-value field, has exactly the missing field 'Valor Total'. *)
Theorem validar_campos_sem_valor {U : Unicode} (texto : str) :
  campo_presente u"NFS-e" texto ->
  campo_presente u"CNPJ Prestador" texto ->
  ~ campo_presente u"Valor Total" texto ->
  validar_campos texto = [u"Valor Total"].
Proof.
  intros H1 H2 H3. rewrite validar_campos_filter.
  apply (campo_presente_row _ [padrao_nfse; padrao_nota_fiscal] _
           campos_nomes_distintos) in H1; [|cbn; auto].
  apply (campo_presente_row _ [padrao_cnpj; padrao_razao_social] _
           campos_nomes_distintos) in H2; [|cbn; auto].
  rewrite (campo_presente_row _ [padrao_valor_rs; padrao_valor_total] _
             campos_nomes_distintos) in H3; [|cbn; auto].
  apply not_false_is_true in H3.
  cbn [campos filter snd]. rewrite H1, H2, H3. reflexivity.
Qed.

Lemma validar_campos_sem_valor_witness :
  (campo_presente (U:=latin1) u"NFS-e" u"NFS-e 49.621.411/0001-93" /\
   campo_presente (U:=latin1) u"CNPJ Prestador" u"NFS-e 49.621.411/0001-93" /\
   ~ campo_presente (U:=latin1) u"Valor Total" u"NFS-e 49.621.411/0001-93") /\
  validar_campos (U:=latin1) u"NFS-e 49.621.411/0001-93" = [u"Valor Total"].
Proof.
  assert (H1 : campo_presente (U:=latin1) u"NFS-e" u"NFS-e 49.621.411/0001-93").
  { exists [padrao_nfse; padrao_nota_fiscal], padrao_nfse.
    repeat split; [left; reflexivity | left; reflexivity]. }
  assert (H2 : campo_presente (U:=latin1) u"CNPJ Prestador"
                 u"NFS-e 49.621.411/0001-93").
  { exists [padrao_cnpj; padrao_razao_social], padrao_cnpj.
    repeat split; [right; left; reflexivity | left; reflexivity]. }
  assert (H3 : ~ campo_presente (U:=latin1) u"Valor Total"
                 u"NFS-e 49.621.411/0001-93").
  { rewrite (campo_presente_row _ [padrao_valor_rs; padrao_valor_total] _
               campos_nomes_distintos) by (cbn; auto).
    vm_compute. discriminate. }
  split; [repeat split; [exact H1 | exact H2 | exact H3]|].
  exact (validar_campos_sem_valor (U:=latin1) _ H1 H2 H3).
Defined.

(** ** The page loop of [processar_nfse] *)

Section OrchestratorFacts.
Context {U : Unicode}.
Variables Pagina Imagem : Type.
Variable convert_from_path : str -> result (list Pagina).
Variable para_bgr : Pagina -> result Imagem.
Variable cv2_binarizar : Imagem -> result Imagem.
Variable image_to_string : Imagem -> str -> result str.

Local Abbreviation pagina :=
  (processar_pagina para_bgr cv2_binarizar image_to_string).
Local Abbreviation laco := (paginas para_bgr cv2_binarizar image_to_string).
Local Abbreviation nfse :=
  (processar_nfse convert_from_path para_bgr cv2_binarizar image_to_string).

(** Pages that all succeed are appended in their order. *)
Lemma paginas_ok (imagens : list Pagina) (textos acc : list str) :
  Forall2 (fun img t => pagina img = Ok t) imagens textos ->
  laco imagens acc = Ok (acc ++ textos).
Proof.
  intros H. revert acc. induction H as [|img t imagens textos Ht _ IH];
    intros acc; cbn [paginas].
  - rewrite app_nil_r. reflexivity.
  - rewrite Ht. cbn [bind]. rewrite IH, <- app_assoc. reflexivity.
Qed.

(** The loop stops at the first page that raises. *)
Lemma paginas_raise (pre : list Pagina) (img : Pagina) (post : list Pagina)
      (textos acc : list str) (e : str) :
  Forall2 (fun img t => pagina img = Ok t) pre textos ->
  pagina img = Raise e ->
  laco (pre ++ img :: post) acc = Raise e.
Proof.
  intros H He. revert acc. induction H as [|i t pre textos Ht _ IH];
    intros acc; cbn [app paginas].
  - rewrite He. reflexivity.
  - rewrite Ht. cbn [bind]. apply IH.
Qed.

(** A page raises exactly when one of its components does. *)
Lemma pagina_falha_raise (img : Pagina) (e : str) :
  pagina_falha para_bgr cv2_binarizar image_to_string img e ->
  pagina img = Raise e.
Proof.
  unfold processar_pagina.
  intros [H|cv H1 H2|cv pr H1 H2 H3|cv pr t H1 H2 H3 H4 H5].
  - rewrite H. reflexivity.
  - rewrite H1. cbn [bind]. rewrite H2. reflexivity.
  - rewrite H1. cbn [bind]. rewrite H2. cbn [bind]. rewrite H3. reflexivity.
  - rewrite H1. cbn [bind]. rewrite H2. cbn [bind]. rewrite H3. cbn [bind].
    rewrite H4, H5. reflexivity.
Qed.

(** C3, as the code behaves: when every page is processed without error,
    the text of the result is the structured texts of the pages in page
    order, one per page, joined by one newline character (a line break,
    not a blank line) between consecutive pages, and the status is decided
    by one call of [validar_campos] on that text. *)
Theorem processar_nfse_concatena (pdf_path : str) (imagens : list Pagina)
        (textos : list str) :
  convert_from_path pdf_path = Ok imagens ->
  Forall2 (fun img t => pagina img = Ok t) imagens textos ->
  length textos = length imagens /\
  snd (nfse pdf_path) = str_join [chr_nl] textos /\
  fst (nfse pdf_path) =
    match validar_campos (str_join [chr_nl] textos) with
    | [] => u"Sucesso"
    | faltantes => u"ERRO: Campos faltantes - " ++ str_join u", " faltantes
    end /\
  forall p q resto, textos = p :: q :: resto ->
    snd (nfse pdf_path) = p ++ [chr_nl] ++ str_join [chr_nl] (q :: resto).
Proof.
  intros Hc Hp. split; [symmetry; eapply Forall2_length; exact Hp|].
  assert (E : nfse pdf_path =
              (match validar_campos (str_join [chr_nl] textos) with
               | [] => u"Sucesso"
               | faltantes =>
                   u"ERRO: Campos faltantes - " ++ str_join u", " faltantes
               end, str_join [chr_nl] textos)).
  { unfold processar_nfse. rewrite Hc. cbn [bind].
    rewrite (paginas_ok _ _ [] Hp). cbn [app].
    destruct (validar_campos (str_join [chr_nl] textos)); reflexivity. }
  rewrite E. cbn [fst snd]. repeat split.
  intros p q resto ->. reflexivity.
Qed.

(** C4, as the code behaves: when the rasterizer raises [e], or a component
    raises [e] on some page after the pages before it were processed, the
    result is the status "ERRO: " followed by [e] together with the empty
    text; the texts of the pages already processed are not returned. *)
Theorem processar_nfse_erro (pdf_path : str) (e : str) :
  (convert_from_path pdf_path = Raise e \/
   exists pre img post textos,
     convert_from_path pdf_path = Ok (pre ++ img :: post) /\
     Forall2 (fun img t => pagina img = Ok t) pre textos /\
     pagina_falha para_bgr cv2_binarizar image_to_string img e) ->
  nfse pdf_path = (u"ERRO: " ++ e, []).
Proof.
  unfold processar_nfse.
  intros [Hc|(pre & img & post & textos & Hc & Hpre & Hf)]; rewrite Hc;
    cbn [bind]; [reflexivity|].
  apply pagina_falha_raise in Hf.
  rewrite (paginas_raise pre img post textos [] e Hpre Hf). reflexivity.
Qed.
End OrchestratorFacts.

Lemma processar_nfse_concatena_witness :
  (paginas_ab u"nota.pdf" = Ok [u"a"; u"b"] /\
   Forall2 (fun img t =>
              processar_pagina (U:=latin1) sem_efeito sem_efeito ocr_eco img
              = Ok t) [u"a"; u"b"] [u"a"; u"b"]) /\
  snd (processar_nfse (U:=latin1) paginas_ab sem_efeito sem_efeito ocr_eco
         u"nota.pdf") = str_join [chr_nl] [u"a"; u"b"].
Proof.
  assert (H : Forall2 (fun img t =>
                processar_pagina (U:=latin1) sem_efeito sem_efeito ocr_eco img
                = Ok t) [u"a"; u"b"] [u"a"; u"b"]).
  { repeat constructor. }
  split; [split; [reflexivity|exact H]|].
  exact (proj1 (proj2 (processar_nfse_concatena (U:=latin1) str str paginas_ab
                         sem_efeito sem_efeito ocr_eco u"nota.pdf"
                         [u"a"; u"b"] [u"a"; u"b"] eq_refl H))).
Defined.

(** C3 as stated fails: for the two pages "a" and "b" the text of the
    result is "a", one newline, "b".  Its lines are "a" and "b": there is
    no blank line between the pages. *)
Lemma processar_nfse_no_blank_line :
  snd (processar_nfse (U:=latin1) paginas_ab sem_efeito sem_efeito ocr_eco
         u"nota.pdf") = u"a" ++ [chr_nl] ++ u"b" /\
  snd (processar_nfse (U:=latin1) paginas_ab sem_efeito sem_efeito ocr_eco
         u"nota.pdf") <> u"a" ++ [chr_nl; chr_nl] ++ u"b" /\
  str_split [chr_nl]
    (snd (processar_nfse (U:=latin1) paginas_ab sem_efeito sem_efeito ocr_eco
            u"nota.pdf")) = [u"a"; u"b"].
Proof.
  repeat split; try reflexivity. vm_compute. discriminate.
Qed.

Lemma processar_nfse_erro_witness :
  (paginas_ax u"nota.pdf" = Raise u"falha" \/
   exists pre img post textos,
     paginas_ax u"nota.pdf" = Ok (pre ++ img :: post) /\
     Forall2 (fun img t =>
                processar_pagina (U:=latin1) sem_efeito sem_efeito ocr_eco img
                = Ok t) pre textos /\
     pagina_falha sem_efeito sem_efeito ocr_eco img u"falha") /\
  processar_nfse (U:=latin1) paginas_ax sem_efeito sem_efeito ocr_eco
    u"nota.pdf" = (u"ERRO: " ++ u"falha", []).
Proof.
  assert (H : paginas_ax u"nota.pdf" = Raise u"falha" \/
              exists pre img post textos,
                paginas_ax u"nota.pdf" = Ok (pre ++ img :: post) /\
                Forall2 (fun img t =>
                           processar_pagina (U:=latin1) sem_efeito sem_efeito
                             ocr_eco img = Ok t) pre textos /\
                pagina_falha sem_efeito sem_efeito ocr_eco img u"falha").
  { right. exists [u"a"], (u"x"), [], [u"a"]. repeat split.
    - repeat constructor.
    - apply (falha_ocr sem_efeito sem_efeito ocr_eco u"x" u"falha" u"x" u"x");
        reflexivity. }
  split; [exact H|].
  exact (processar_nfse_erro (U:=latin1) str str paginas_ax sem_efeito sem_efeito
           ocr_eco u"nota.pdf" u"falha" H).
Defined.

(** C4 as stated fails: the first page yields the text "a", the OCR engine
    raises on the second page, and the text of the result is empty: it
    does not contain the text of the first page. *)
Lemma processar_nfse_erro_no_partial_text :
  processar_pagina (U:=latin1) sem_efeito sem_efeito ocr_eco u"a" = Ok u"a" /\
  processar_nfse (U:=latin1) paginas_ax sem_efeito sem_efeito ocr_eco
    u"nota.pdf" = (u"ERRO: falha", []) /\
  occurs u"a"
    (snd (processar_nfse (U:=latin1) paginas_ax sem_efeito sem_efeito ocr_eco
            u"nota.pdf")) = false.
Proof. repeat split. Qed.

(** ** The structuring rules *)

Lemma list_sum_repeat_1 (k : nat) : list_sum (repeat 1 k) = k.
Proof. induction k as [|k IH]; [reflexivity|]. cbn [repeat]. rewrite list_sum_cons, IH. reflexivity. Qed.

Lemma length_lits (s : str) : length (lits s) = length s.
Proof. unfold lits. apply length_map. Qed.

Lemma starts_with_prefix (p s t : str) :
  length p <= length s -> starts_with p (s ++ t) = starts_with p s.
Proof.
  revert s. induction p as [|a p IH]; intros s H; [reflexivity|].
  destruct s as [|b s]; [cbn [length] in H; lia|].
  cbn [app starts_with]. rewrite IH; [reflexivity|]. cbn [length] in H. lia.
Qed.

Section StructuringFacts.
Context {U : Unicode}.

Lemma aplicar_app (ic : bool) (r1 r2 : list (regex * repl)) (t : str) :
  aplicar ic (r1 ++ r2) t = aplicar ic r2 (aplicar ic r1 t).
Proof. unfold aplicar. apply fold_left_app. Qed.

(** Rules whose patterns are found nowhere leave the text as it is. *)
Lemma aplicar_absent (ic : bool) (regras : list (regex * repl)) (t : str) :
  (forall regra, In regra regras -> re_search ic (fst regra) t = false) ->
  aplicar ic regras t = t.
Proof.
  unfold aplicar, aplicar_regra.
  induction regras as [|[r rp] regras IH]; intros H; [reflexivity|].
  cbn [fold_left fst snd]. rewrite re_sub_absent.
  - apply IH. intros regra Hin. apply H. right. exact Hin.
  - apply (H (r, rp)). left. reflexivity.
Qed.

(** Without the flag, a run of literals matches only itself. *)
Lemma match_atoms_lits_miss (p : str) (rs : list atom) (s : str) :
  starts_with p s = false -> match_atoms false (lits p ++ rs) s = None.
Proof.
  revert s. induction p as [|a p IH]; intros s H; [discriminate|].
  destruct s as [|b s]; [reflexivity|].
  cbn [lits map app match_atoms node_ok]. unfold lit_ok.
  cbn [starts_with] in H. destruct (a =? b)%N; [|reflexivity].
  cbn [andb] in H. fold (lits p). rewrite (IH s H). reflexivity.
Qed.

Lemma match_atoms_lits_hit (ic : bool) (p : str) (rs : list atom) (s : str) :
  match_atoms ic (lits p ++ rs) (p ++ s) =
  option_map (app (repeat 1 (length p))) (match_atoms ic rs s).
Proof.
  induction p as [|c p IH].
  - cbn [lits map app length repeat]. destruct (match_atoms ic rs s); reflexivity.
  - cbn [lits map app match_atoms node_ok length repeat].
    rewrite lit_ok_same. fold (lits p). rewrite IH.
    destruct (match_atoms ic rs s); reflexivity.
Qed.



End StructuringFacts.

(** ** The two spacing rules *)

Lemma skipn_length_app {A : Type} (a b : list A) :
  skipn (length a) (a ++ b) = b.
Proof. induction a as [|x a IH]; [reflexivity|exact IH]. Qed.

Lemma firstn_length_app {A : Type} (a b : list A) :
  firstn (length a) (a ++ b) = a.
Proof. induction a as [|x a IH]; [reflexivity|]. cbn. f_equal. exact IH. Qed.

Lemma first_down_hit_0 {A : Type} (f : nat -> option A) (k : nat) (r : A) :
  f k = Some r -> first_down f 0 k = Some r.
Proof. apply first_down_hit. lia. Qed.

Section SpacingFacts.
Context {U : Unicode}.

Lemma run_exact (ic : bool) (n : node) (a b : str) :
  Forall (fun c => node_ok ic n c = true) a ->
  match b with [] => True | c :: _ => node_ok ic n c = false end ->
  run ic n None (a ++ b) = length a.
Proof.
  intros Ha Hb. induction Ha as [|c a Hc _ IH]; cbn [app length].
  - destruct b as [|c b]; [reflexivity|]. cbn [run]. rewrite Hb. reflexivity.
  - cbn [run]. rewrite Hc, IH. reflexivity.
Qed.

Lemma maiuscula_latin1 (c : char) : maiuscula c = true -> (c < 256)%N.
Proof.
  unfold maiuscula, in_range. intros H. apply andb_true_iff in H.
  destruct H as [_ H]. apply N.leb_le in H. lia.
Qed.

Lemma maiuscula_not_space (c : char) : maiuscula c = true -> isspace c = false.
Proof.
  intros H. rewrite (isspace_latin1 c (maiuscula_latin1 c H)).
  unfold maiuscula, in_range in H. apply andb_true_iff in H.
  destruct H as [H1 H2]. apply N.leb_le in H1. apply N.leb_le in H2.
  unfold l1_isspace, in_range.
  replace (c <=? 13)%N with false by (symmetry; apply N.leb_gt; lia).
  replace (c <=? 32)%N with false by (symmetry; apply N.leb_gt; lia).
  replace (c =? 133)%N with false by (symmetry; apply N.eqb_neq; lia).
  replace (c =? 160)%N with false by (symmetry; apply N.eqb_neq; lia).
  rewrite !andb_false_r. reflexivity.
Qed.

Lemma maiuscula_not_decimal (c : char) :
  maiuscula c = true -> isdecimal c = false.
Proof.
  intros H. rewrite (isdecimal_latin1 c (maiuscula_latin1 c H)).
  unfold maiuscula, in_range in H. apply andb_true_iff in H.
  destruct H as [H1 H2]. apply N.leb_le in H1. apply N.leb_le in H2.
  unfold l1_isdecimal, in_range.
  replace (c <=? 57)%N with false by (symmetry; apply N.leb_gt; lia).
  apply andb_false_r.
Qed.

Lemma dot_not_decimal : isdecimal chr_dot = false.
Proof. rewrite isdecimal_latin1 by reflexivity. reflexivity. Qed.

Lemma space_not_decimal : isdecimal chr_space = false.
Proof. rewrite isdecimal_latin1 by reflexivity. reflexivity. Qed.

Lemma space_is_space : isspace chr_space = true.
Proof. rewrite isspace_latin1 by reflexivity. reflexivity. Qed.

Lemma dollar_not_decimal : isdecimal chr_dollar = false.
Proof. rewrite isdecimal_latin1 by reflexivity. reflexivity. Qed.

Lemma dollar_not_space : isspace chr_dollar = false.
Proof. rewrite isspace_latin1 by reflexivity. reflexivity. Qed.

Lemma R_not_decimal : isdecimal chr_R = false.
Proof. rewrite isdecimal_latin1 by reflexivity. reflexivity. Qed.

Lemma atoms_lista :
  atoms_of (fst regra_lista) =
  [Rep Digit 1 None; One (Lit chr_dot); Rep Space 1 None;
   One (Class [CRange 65%N 90%N])].
Proof. reflexivity. Qed.

(** *** What (\d+)\.\s+([A-Z]) matches *)

Lemma match_atoms_lista_hit (D W : str) (L : char) (z : str) :
  forma_lista D W L ->
  match_atoms false (atoms_of (fst regra_lista))
    (D ++ chr_dot :: W ++ L :: z) = Some [length D; 1; length W; 1].
Proof.
  intros (HD & HDd & HW & HWs & HL). rewrite atoms_lista.
  cbn [match_atoms].
  rewrite (run_exact false Digit D (chr_dot :: W ++ L :: z));
    [|exact HDd|exact dot_not_decimal].
  apply first_down_hit.
  - destruct D; [contradiction|cbn [length]; lia].
  - rewrite skipn_length_app. cbn [node_ok]. unfold lit_ok.
    rewrite N.eqb_refl.
    rewrite (run_exact false Space W (L :: z));
      [|exact HWs|exact (maiuscula_not_space L HL)].
    rewrite (first_down_hit _ 1 (length W) [length W; 1]).
    + reflexivity.
    + destruct W; [contradiction|cbn [length]; lia].
    + rewrite skipn_length_app. cbn [match_atoms node_ok existsb citem_ok].
      rewrite orb_false_r. fold (maiuscula L). rewrite HL. reflexivity.
Qed.

Lemma match_atoms_lista_inv (s : str) (lens : list nat) :
  match_atoms false (atoms_of (fst regra_lista)) s = Some lens ->
  exists D W L z, s = D ++ chr_dot :: W ++ L :: z /\ forma_lista D W L.
Proof.
  rewrite atoms_lista. cbn [match_atoms]. intros H.
  apply first_down_inv in H. destruct H as (j & Hj & Hf & _).
  destruct (skipn j s) as [|c s1] eqn:Es; [discriminate|].
  cbn [node_ok] in Hf. unfold lit_ok in Hf.
  destruct (N.eqb_spec chr_dot c) as [<-|]; [|discriminate].
  match type of Hf with
  | option_map _ (option_map _ ?fd) = _ =>
      destruct fd as [l2|] eqn:E2; [|discriminate]
  end.
  apply first_down_inv in E2. destruct E2 as (j2 & Hj2 & Hf2 & _).
  destruct (skipn j2 s1) as [|L z] eqn:Es1; [discriminate|].
  cbn [node_ok existsb citem_ok] in Hf2. rewrite orb_false_r in Hf2.
  fold (maiuscula L) in Hf2.
  destruct (maiuscula L) eqn:HL; [|discriminate].
  exists (firstn j s), (firstn j2 s1), L, z. split.
  - rewrite <- Es1, firstn_skipn, <- Es, firstn_skipn. reflexivity.
  - pose proof (run_le false Digit None s) as Hle.
    pose proof (run_le false Space None s1) as Hle2.
    repeat split.
    + intros E. apply (f_equal (@length char)) in E.
      rewrite length_firstn in E. cbn [length] in E. lia.
    + apply (run_accepts false Digit None s j). lia.
    + intros E. apply (f_equal (@length char)) in E.
      rewrite length_firstn in E. cbn [length] in E. lia.
    + apply (run_accepts false Space None s1 j2). lia.
    + exact HL.
Qed.
End SpacingFacts.

Section SpacingMatches.
Context {U : Unicode}.

Lemma match_here_lista_hit (D W : str) (L : char) (z : str) :
  forma_lista D W L ->
  exists m,
    match_here false (fst regra_lista) (D ++ chr_dot :: W ++ L :: z) = Some m /\
    m_len m = length (D ++ chr_dot :: W ++ [L]) /\
    m_text m = D ++ chr_dot :: W ++ [L] /\
    expand (snd regra_lista) m = D ++ [chr_dot; chr_space; L].
Proof.
  intros H. unfold match_here. rewrite (match_atoms_lista_hit D W L z H).
  eexists. split; [reflexivity|]. cbn [m_len m_text m_groups].
  assert (Hn : list_sum [length D; 1; length W; 1] =
               length (D ++ chr_dot :: W ++ [L])).
  { rewrite length_app. cbn [length]. rewrite length_app. cbn. lia. }
  rewrite Hn. split; [reflexivity|]. split.
  - replace (D ++ chr_dot :: W ++ L :: z)
      with ((D ++ chr_dot :: W ++ [L]) ++ z).
    + apply firstn_length_app.
    + rewrite <- app_assoc. cbn [app]. rewrite <- app_assoc. reflexivity.
  - cbn [regra_lista fst snd captures firstn skipn length list_sum fold_right
         expand flat_map nth Nat.sub].
    rewrite Nat.add_0_r, firstn_length_app, skipn_length_app.
    cbn [skipn]. rewrite skipn_length_app. cbn [firstn].
    rewrite app_nil_r. reflexivity.
Qed.

Lemma match_here_lista_inv (s : str) (m : rmatch) :
  match_here false (fst regra_lista) s = Some m ->
  exists D W L z, s = D ++ chr_dot :: W ++ L :: z /\ forma_lista D W L.
Proof.
  unfold match_here.
  destruct (match_atoms false (atoms_of (fst regra_lista)) s) as [lens|] eqn:E;
    [|discriminate].
  intros _. eapply match_atoms_lista_inv. exact E.
Qed.

(** The rule at a position where its pattern matches. *)
Lemma lista_hit (D W : str) (L : char) (z : str) :
  forma_lista D W L ->
  aplicar_regra false regra_lista (D ++ chr_dot :: W ++ L :: z) =
  D ++ [chr_dot; chr_space; L] ++ aplicar_regra false regra_lista z.
Proof.
  intros H. destruct (match_here_lista_hit D W L z H) as (m & Hm & Hl & _ & He).
  unfold aplicar_regra, re_sub.
  rewrite (sub_go_match _ _ _ _ _ Hm).
  - rewrite He, Hl.
    replace (D ++ chr_dot :: W ++ L :: z)
      with ((D ++ chr_dot :: W ++ [L]) ++ z).
    + rewrite skipn_length_app, <- app_assoc. reflexivity.
    + rewrite <- app_assoc. cbn [app]. rewrite <- app_assoc. reflexivity.
  - rewrite Hl, length_app. cbn [length]. lia.
Qed.

(** The pattern of the rule starts with a digit. *)
Lemma lista_head (c : char) (s : str) :
  isdecimal c = false -> match_here false (fst regra_lista) (c :: s) = None.
Proof.
  intros Hc. destruct (match_here false (fst regra_lista) (c :: s)) as [m|] eqn:E;
    [|reflexivity].
  apply match_here_lista_inv in E.
  destruct E as (D & W & L & z & Es & (HD & HDd & _)).
  destruct D as [|d D]; [contradiction|]. injection Es as <- _.
  inversion HDd; subst. congruence.
Qed.

Lemma atoms_moeda :
  atoms_of (fst regra_moeda) =
  [One (Lit chr_R); One (Lit chr_dollar); Rep Space 0 None; One Digit].
Proof. reflexivity. Qed.

Lemma match_atoms_moeda_hit (W : str) (d : char) (z : str) :
  forma_moeda W d ->
  match_atoms false (atoms_of (fst regra_moeda))
    (chr_R :: chr_dollar :: W ++ d :: z) = Some [1; 1; length W; 1].
Proof.
  intros (HW & Hd). rewrite atoms_moeda.
  cbn [match_atoms node_ok]. unfold lit_ok. rewrite !N.eqb_refl.
  rewrite (run_exact false Space W (d :: z));
    [|exact HW|exact (decimal_not_space d Hd)].
  rewrite (first_down_hit_0 _ (length W) [length W; 1]); [reflexivity|].
  rewrite skipn_length_app. rewrite Hd. reflexivity.
Qed.

Lemma match_atoms_moeda_inv (s : str) (lens : list nat) :
  match_atoms false (atoms_of (fst regra_moeda)) s = Some lens ->
  exists W d z, s = chr_R :: chr_dollar :: W ++ d :: z /\ forma_moeda W d.
Proof.
  rewrite atoms_moeda. cbn [match_atoms node_ok]. unfold lit_ok.
  destruct s as [|c1 s]; [discriminate|].
  destruct (N.eqb_spec chr_R c1) as [<-|]; [|discriminate].
  destruct s as [|c2 s]; [discriminate|].
  destruct (N.eqb_spec chr_dollar c2) as [<-|]; [|discriminate].
  intros H.
  match type of H with
  | option_map _ (option_map _ ?fd) = _ =>
      destruct fd as [l2|] eqn:E2; [|discriminate]
  end.
  apply first_down_inv in E2. destruct E2 as (j & Hj & Hf & _).
  destruct (skipn j s) as [|d z] eqn:Es; [discriminate|].
  destruct (isdecimal d) eqn:Hd; [|discriminate].
  exists (firstn j s), d, z. split.
  - rewrite <- Es, firstn_skipn. reflexivity.
  - split; [|exact Hd]. apply (run_accepts false Space None s j). lia.
Qed.

Lemma match_here_moeda_hit (W : str) (d : char) (z : str) :
  forma_moeda W d ->
  exists m,
    match_here false (fst regra_moeda) (chr_R :: chr_dollar :: W ++ d :: z)
      = Some m /\
    m_len m = length (chr_R :: chr_dollar :: W ++ [d]) /\
    m_text m = chr_R :: chr_dollar :: W ++ [d] /\
    expand (snd regra_moeda) m = [chr_R; chr_dollar; chr_space; d].
Proof.
  intros H. unfold match_here. rewrite (match_atoms_moeda_hit W d z H).
  eexists. split; [reflexivity|]. cbn [m_len m_text m_groups].
  assert (Hn : list_sum [1; 1; length W; 1] =
               length (chr_R :: chr_dollar :: W ++ [d])).
  { cbn [length]. rewrite length_app. cbn. lia. }
  rewrite Hn. split; [reflexivity|]. split.
  - replace (chr_R :: chr_dollar :: W ++ d :: z)
      with ((chr_R :: chr_dollar :: W ++ [d]) ++ z).
    + apply firstn_length_app.
    + cbn [app]. rewrite <- app_assoc. reflexivity.
  - change (snd regra_moeda)
      with (Template [TText [chr_R; chr_dollar; chr_space]; TGroup 1]).
    change (fst regra_moeda)
      with [Plain (One (Lit chr_R)); Plain (One (Lit chr_dollar));
            Plain (Rep Space 0 None); Group [One Digit]].
    cbn [captures skipn expand flat_map nth Nat.sub].
    rewrite skipn_length_app. reflexivity.
Qed.

Lemma match_here_moeda_inv (s : str) (m : rmatch) :
  match_here false (fst regra_moeda) s = Some m ->
  exists W d z, s = chr_R :: chr_dollar :: W ++ d :: z /\ forma_moeda W d.
Proof.
  unfold match_here.
  destruct (match_atoms false (atoms_of (fst regra_moeda)) s) as [lens|] eqn:E;
    [|discriminate].
  intros _. eapply match_atoms_moeda_inv. exact E.
Qed.

Lemma moeda_hit (W : str) (d : char) (z : str) :
  forma_moeda W d ->
  aplicar_regra false regra_moeda (chr_R :: chr_dollar :: W ++ d :: z) =
  [chr_R; chr_dollar; chr_space; d] ++ aplicar_regra false regra_moeda z.
Proof.
  intros H. destruct (match_here_moeda_hit W d z H) as (m & Hm & Hl & _ & He).
  unfold aplicar_regra, re_sub.
  rewrite (sub_go_match _ _ _ _ _ Hm).
  - rewrite He, Hl.
    replace (chr_R :: chr_dollar :: W ++ d :: z)
      with ((chr_R :: chr_dollar :: W ++ [d]) ++ z).
    + rewrite skipn_length_app. reflexivity.
    + cbn [app]. rewrite <- app_assoc. reflexivity.
  - rewrite Hl. cbn [length]. lia.
Qed.

(** The pattern of the rule starts with "R". *)
Lemma moeda_head (c : char) (s : str) :
  c <> chr_R -> match_here false (fst regra_moeda) (c :: s) = None.
Proof.
  intros Hc. destruct (match_here false (fst regra_moeda) (c :: s)) as [m|] eqn:E;
    [|reflexivity].
  apply match_here_moeda_inv in E. destruct E as (W & d & z & Es & _).
  injection Es as -> _. contradiction.
Qed.

(** Where the pattern does not match, the character is copied. *)
Lemma regra_miss (regra : regex * repl) (c : char) (s : str) :
  match_here false (fst regra) (c :: s) = None ->
  aplicar_regra false regra (c :: s) = c :: aplicar_regra false regra s.
Proof. intros H. unfold aplicar_regra, re_sub. apply sub_go_miss. exact H. Qed.

Lemma lista_nil : aplicar_regra false regra_lista [] = [].
Proof. reflexivity. Qed.

Lemma moeda_nil : aplicar_regra false regra_moeda [] = [].
Proof. reflexivity. Qed.
End SpacingMatches.

(** ** Texts on which a spacing rule has nothing to change *)

Lemma starts_with_self_app (p r : str) : starts_with p (p ++ r) = true.
Proof.
  induction p as [|a p IH]; [reflexivity|].
  cbn [app starts_with]. rewrite N.eqb_refl. exact IH.
Qed.

Lemma starts_with_cons_inv (a : char) (p : str) (c : char) (s : str) :
  starts_with (a :: p) (c :: s) = true -> a = c /\ starts_with p s = true.
Proof.
  cbn [starts_with]. intros H. apply andb_true_iff in H.
  destruct H as [H1 H2]. apply N.eqb_eq in H1. split; assumption.
Qed.

(** A prefix that avoids [x] cannot reach past an [x]. *)
Lemma starts_with_stop (x : char) (q a r r' : str) :
  ~ In x q -> starts_with q (a ++ x :: r) = true ->
  starts_with q (a ++ r') = true.
Proof.
  revert q. induction a as [|y a IH]; intros q Hq H.
  - destruct q as [|b q]; [reflexivity|].
    cbn [app] in H. apply starts_with_cons_inv in H. destruct H as [-> _].
    exfalso. apply Hq. left. reflexivity.
  - destruct q as [|b q]; [reflexivity|].
    cbn [app] in H |- *. apply starts_with_cons_inv in H.
    destruct H as [-> H]. cbn [starts_with]. rewrite N.eqb_refl.
    apply IH; [|exact H]. intros Hin. apply Hq. right. exact Hin.
Qed.

Lemma occurs_here (p s : str) : starts_with p s = true -> occurs p s = true.
Proof. intros H. destruct s; cbn [occurs]; rewrite H; reflexivity. Qed.

Lemma occurs_cons (p : str) (c : char) (s : str) :
  occurs p s = true -> occurs p (c :: s) = true.
Proof. intros H. cbn [occurs]. rewrite H. apply orb_true_r. Qed.

Lemma occurs_app_r (p a s : str) :
  occurs p s = true -> occurs p (a ++ s) = true.
Proof.
  intros H. induction a as [|c a IH]; [exact H|].
  cbn [app]. apply occurs_cons. exact IH.
Qed.

Lemma occurs_cons_inv (p : str) (c : char) (s : str) :
  occurs p (c :: s) = true ->
  starts_with p (c :: s) = true \/ occurs p s = true.
Proof. cbn [occurs]. intros H. apply orb_true_iff in H. exact H. Qed.

Section Stability.
Context {U : Unicode}.

Lemma estavel_id (regra : regex * repl) (x : str) :
  estavel false regra x -> aplicar_regra false regra x = x.
Proof. intros H. unfold aplicar_regra. apply sub_go_copy. exact H. Qed.

Lemma estavel_skipn (ic : bool) (regra : regex * repl) (k : nat) (x : str) :
  estavel ic regra x -> estavel ic regra (skipn k x).
Proof.
  intros H i m Hm. rewrite skipn_skipn in Hm. exact (H _ _ Hm).
Qed.

Lemma estavel_tail (ic : bool) (regra : regex * repl) (c : char) (x : str) :
  estavel ic regra (c :: x) -> estavel ic regra x.
Proof. intros H. exact (estavel_skipn ic regra 1 (c :: x) H). Qed.

Lemma estavel_cons (ic : bool) (regra : regex * repl) (c : char) (x : str) :
  (forall m, match_here ic (fst regra) (c :: x) = Some m ->
             expand (snd regra) m = m_text m) ->
  estavel ic regra x -> estavel ic regra (c :: x).
Proof.
  intros H0 H [|i] m Hm; [exact (H0 m Hm)|]. exact (H i m Hm).
Qed.

Lemma estavel_cons_miss (ic : bool) (regra : regex * repl) (c : char)
      (x : str) :
  match_here ic (fst regra) (c :: x) = None ->
  estavel ic regra x -> estavel ic regra (c :: x).
Proof.
  intros H0 H. apply estavel_cons; [|exact H].
  intros m Hm. rewrite H0 in Hm. discriminate.
Qed.

(** *** The currency rule *)

(** A prefix without "$" of the output is a prefix of the input. *)
Lemma moeda_prefix (q s : str) :
  ~ In chr_dollar q ->
  starts_with q (aplicar_regra false regra_moeda s) = true ->
  starts_with q s = true.
Proof.
  revert q. induction s as [|c s IH]; intros q Hq H.
  - rewrite moeda_nil in H. exact H.
  - destruct (match_here false (fst regra_moeda) (c :: s)) as [m|] eqn:E.
    + apply match_here_moeda_inv in E.
      destruct E as (W & d & z & Es & Hf). rewrite Es in H |- *.
      rewrite (moeda_hit W d z Hf) in H.
      destruct q as [|a q]; [reflexivity|].
      cbn [app] in H. apply starts_with_cons_inv in H. destruct H as [-> H].
      cbn [starts_with]. rewrite N.eqb_refl.
      destruct q as [|b q]; [reflexivity|].
      apply starts_with_cons_inv in H. destruct H as [-> _].
      exfalso. apply Hq. right. left. reflexivity.
    + rewrite (regra_miss _ _ _ E) in H.
      destruct q as [|a q]; [reflexivity|].
      apply starts_with_cons_inv in H. destruct H as [-> H].
      cbn [starts_with]. rewrite N.eqb_refl. apply IH; [|exact H].
      intros Hin. apply Hq. right. exact Hin.
Qed.

(** A "$" at the head of the output was copied from the input. *)
Lemma moeda_dollar (s y : str) :
  aplicar_regra false regra_moeda s = chr_dollar :: y ->
  exists s', s = chr_dollar :: s' /\ y = aplicar_regra false regra_moeda s'.
Proof.
  destruct s as [|c s]; [rewrite moeda_nil; discriminate|].
  destruct (match_here false (fst regra_moeda) (c :: s)) as [m|] eqn:E.
  - apply match_here_moeda_inv in E. destruct E as (W & d & z & Es & Hf).
    rewrite Es, (moeda_hit W d z Hf). discriminate.
  - rewrite (regra_miss _ _ _ E). intros [= -> <-]. exists s. split; reflexivity.
Qed.

Lemma forma_moeda_no_dollar (W : str) (d : char) :
  forma_moeda W d -> ~ In chr_dollar (W ++ [d]).
Proof.
  intros (HW & Hd) Hin. apply in_app_or in Hin. destruct Hin as [Hin|Hin].
  - rewrite Forall_forall in HW. apply HW in Hin.
    rewrite dollar_not_space in Hin. discriminate.
  - destruct Hin as [->|[]]. rewrite dollar_not_decimal in Hd. discriminate.
Qed.

(** Where the pattern does not match in the input, it does not match in
    the output either. *)
Lemma moeda_miss_stable (c : char) (s : str) :
  match_here false (fst regra_moeda) (c :: s) = None ->
  match_here false (fst regra_moeda)
    (c :: aplicar_regra false regra_moeda s) = None.
Proof.
  intros Hnone.
  destruct (match_here false (fst regra_moeda)
              (c :: aplicar_regra false regra_moeda s)) as [m|] eqn:E;
    [|reflexivity].
  exfalso. apply match_here_moeda_inv in E.
  destruct E as (W & d & z & Es & Hf). injection Es as -> Es.
  apply moeda_dollar in Es. destruct Es as (s' & -> & Es).
  assert (Hp : starts_with (W ++ [d]) s' = true).
  { apply moeda_prefix; [exact (forma_moeda_no_dollar W d Hf)|].
    rewrite <- Es.
    replace (W ++ d :: z) with ((W ++ [d]) ++ z)
      by (rewrite <- app_assoc; reflexivity).
    apply starts_with_self_app. }
  apply starts_with_app in Hp. destruct Hp as [rest ->].
  rewrite <- app_assoc in Hnone. cbn [app] in Hnone.
  destruct (match_here_moeda_hit W d rest Hf) as (m' & Hm' & _).
  rewrite Hm' in Hnone. discriminate.
Qed.

(** The output of the currency rule is stable under the rule. *)
Lemma moeda_estavel (x : str) :
  estavel false regra_moeda (aplicar_regra false regra_moeda x).
Proof.
  remember (length x) as n eqn:Hn. revert x Hn.
  induction n as [n IH] using lt_wf_ind. intros x Hn.
  destruct x as [|c x].
  - rewrite moeda_nil. intros i m Hm. rewrite skipn_nil in Hm.
    apply match_here_moeda_inv in Hm. destruct Hm as (? & ? & ? & Es & _).
    discriminate.
  - destruct (match_here false (fst regra_moeda) (c :: x)) as [m|] eqn:E.
    + apply match_here_moeda_inv in E.
      destruct E as (W & d & z & Es & Hf). rewrite Es.
      rewrite (moeda_hit W d z Hf). cbn [app].
      assert (Hd : forma_moeda [chr_space] d).
      { destruct Hf as [_ Hd]. split; [|exact Hd].
        constructor; [exact space_is_space|constructor]. }
      apply estavel_cons.
      * intros m' Hm'.
        destruct (match_here_moeda_hit [chr_space] d
                    (aplicar_regra false regra_moeda z) Hd)
          as (m2 & Hm2 & _ & Ht & He).
        cbn [app] in Hm2. rewrite Hm2 in Hm'. injection Hm' as <-.
        rewrite He, Ht. reflexivity.
      * apply estavel_cons_miss; [apply moeda_head; discriminate|].
        apply estavel_cons_miss; [apply moeda_head; discriminate|].
        apply estavel_cons_miss.
        { apply moeda_head. intros ->. destruct Hf as [_ Hd'].
          rewrite R_not_decimal in Hd'. discriminate. }
        apply (IH (length z)); [|reflexivity].
        rewrite Hn, Es. cbn [length]. rewrite length_app. cbn [length]. lia.
    + rewrite (regra_miss _ _ _ E). apply estavel_cons_miss.
      * apply moeda_miss_stable. exact E.
      * apply (IH (length x)); [|reflexivity]. rewrite Hn. cbn [length]. lia.
Qed.
End Stability.

Section StabilityLista.
Context {U : Unicode}.

(** *** The list rule *)

(** A prefix without "." of the output is a prefix of the input. *)
Lemma lista_prefix (q s : str) :
  ~ In chr_dot q ->
  starts_with q (aplicar_regra false regra_lista s) = true ->
  starts_with q s = true.
Proof.
  revert q. induction s as [|c s IH]; intros q Hq H.
  - rewrite lista_nil in H. exact H.
  - destruct (match_here false (fst regra_lista) (c :: s)) as [m|] eqn:E.
    + apply match_here_lista_inv in E.
      destruct E as (D & W & L & z & Es & Hf). rewrite Es in H |- *.
      rewrite (lista_hit D W L z Hf) in H.
      cbn [app] in H. exact (starts_with_stop chr_dot q D _ _ Hq H).
    + rewrite (regra_miss _ _ _ E) in H.
      destruct q as [|a q]; [reflexivity|].
      apply starts_with_cons_inv in H. destruct H as [-> H].
      cbn [starts_with]. rewrite N.eqb_refl. apply IH; [|exact H].
      intros Hin. apply Hq. right. exact Hin.
Qed.

(** A character of the output that is not a digit was copied. *)
Lemma lista_copy (w : char) (s y : str) :
  isdecimal w = false ->
  aplicar_regra false regra_lista s = w :: y ->
  exists s', s = w :: s' /\ y = aplicar_regra false regra_lista s'.
Proof.
  intros Hw. destruct s as [|c s]; [rewrite lista_nil; discriminate|].
  destruct (match_here false (fst regra_lista) (c :: s)) as [m|] eqn:E.
  - apply match_here_lista_inv in E.
    destruct E as (D & W & L & z & Es & Hf).
    rewrite Es, (lista_hit D W L z Hf).
    destruct Hf as (HD & HDd & _). destruct D as [|d D]; [contradiction|].
    cbn [app]. intros [= -> _]. inversion HDd; subst. congruence.
  - rewrite (regra_miss _ _ _ E). intros [= -> <-]. exists s. split; reflexivity.
Qed.

Lemma lista_copy_run (W : str) (s y : str) :
  Forall (fun c => isdecimal c = false) W ->
  aplicar_regra false regra_lista s = W ++ y ->
  exists s', s = W ++ s' /\ y = aplicar_regra false regra_lista s'.
Proof.
  intros HW. revert s. induction HW as [|w W Hw _ IH]; intros s H.
  - exists s. split; [reflexivity|symmetry; exact H].
  - cbn [app] in H. apply (lista_copy w s _ Hw) in H.
    destruct H as (s1 & -> & H). symmetry in H. apply IH in H.
    destruct H as (s2 & -> & H). exists s2. split; [reflexivity|exact H].
Qed.

Lemma space_run_not_decimal (W : str) :
  Forall (fun c => isspace c = true) W ->
  Forall (fun c => isdecimal c = false) W.
Proof.
  intros H. eapply Forall_impl; [|exact H]. cbn. intros c Hc.
  destruct (isdecimal c) eqn:E; [|reflexivity].
  apply decimal_not_space in E. congruence.
Qed.

(** When the output has the shape "digits . space capital", digits
    possibly missing, so has the input. *)
Lemma lista_shape (s D1 W : str) (L : char) (z : str) :
  Forall (fun c => isdecimal c = true) D1 ->
  W <> [] -> Forall (fun c => isspace c = true) W -> maiuscula L = true ->
  aplicar_regra false regra_lista s = D1 ++ chr_dot :: W ++ L :: z ->
  exists D' W' L' z',
    s = D' ++ chr_dot :: W' ++ L' :: z' /\
    Forall (fun c => isdecimal c = true) D' /\
    W' <> [] /\ Forall (fun c => isspace c = true) W' /\ maiuscula L' = true.
Proof.
  intros HD HW HWs HL. revert D1 HD.
  induction s as [|c s IH]; intros D1 HD H.
  - rewrite lista_nil in H. destruct D1; discriminate.
  - destruct (match_here false (fst regra_lista) (c :: s)) as [m|] eqn:E.
    + apply match_here_lista_inv in E.
      destruct E as (D & W' & L' & z' & Es & (_ & HDd & HW' & HWs' & HL')).
      exists D, W', L', z'. repeat split; assumption.
    + rewrite (regra_miss _ _ _ E) in H. destruct D1 as [|d D1].
      * cbn [app] in H. injection H as -> H.
        apply (lista_copy_run W s _ (space_run_not_decimal W HWs)) in H.
        destruct H as (s1 & -> & H). symmetry in H.
        apply (lista_copy L s1 z (maiuscula_not_decimal L HL)) in H.
        destruct H as (s2 & -> & _).
        exists [], W, L, s2. repeat split; assumption.
      * cbn [app] in H. injection H as -> H. inversion HD; subst.
        destruct (IH D1 ltac:(assumption) H)
          as (D' & W' & L' & z' & -> & HD' & HW' & HWs' & HL').
        exists (d :: D'), W', L', z'. repeat split; try assumption.
        constructor; assumption.
Qed.

Lemma lista_miss_stable (c : char) (s : str) :
  match_here false (fst regra_lista) (c :: s) = None ->
  match_here false (fst regra_lista)
    (c :: aplicar_regra false regra_lista s) = None.
Proof.
  intros Hnone.
  destruct (match_here false (fst regra_lista)
              (c :: aplicar_regra false regra_lista s)) as [m|] eqn:E;
    [|reflexivity].
  exfalso. apply match_here_lista_inv in E.
  destruct E as (D & W & L & z & Es & (HD & HDd & HW & HWs & HL)).
  destruct D as [|d D]; [contradiction|]. cbn [app] in Es.
  injection Es as -> Es. inversion HDd; subst.
  destruct (lista_shape s D W L z ltac:(assumption) HW HWs HL Es)
    as (D' & W' & L' & z' & -> & HD' & HW' & HWs' & HL').
  assert (Hf : forma_lista (d :: D') W' L').
  { repeat split; try assumption; [discriminate|constructor; assumption]. }
  destruct (match_here_lista_hit (d :: D') W' L' z' Hf) as (m' & Hm' & _).
  cbn [app] in Hm'. rewrite Hm' in Hnone. discriminate.
Qed.

Lemma lista_estavel_digits (D : str) (L : char) (y : str) :
  Forall (fun c => isdecimal c = true) D -> maiuscula L = true ->
  estavel false regra_lista (chr_dot :: chr_space :: L :: y) ->
  estavel false regra_lista (D ++ chr_dot :: chr_space :: L :: y).
Proof.
  intros HD HL Hy. induction HD as [|d D Hd HD IH]; [exact Hy|].
  cbn [app]. apply estavel_cons; [|exact IH].
  intros m Hm.
  assert (Hf : forma_lista (d :: D) [chr_space] L).
  { repeat split; try assumption; try discriminate.
    - constructor; assumption.
    - constructor; [exact space_is_space|constructor]. }
  destruct (match_here_lista_hit (d :: D) [chr_space] L y Hf)
    as (m2 & Hm2 & _ & Ht & He).
  cbn [app] in Hm2. rewrite Hm2 in Hm. injection Hm as <-.
  rewrite He, Ht. reflexivity.
Qed.

(** The output of the list rule is stable under the rule. *)
Lemma lista_estavel (x : str) :
  estavel false regra_lista (aplicar_regra false regra_lista x).
Proof.
  remember (length x) as n eqn:Hn. revert x Hn.
  induction n as [n IH] using lt_wf_ind. intros x Hn.
  destruct x as [|c x].
  - rewrite lista_nil. intros i m Hm. rewrite skipn_nil in Hm.
    apply match_here_lista_inv in Hm.
    destruct Hm as (D & ? & ? & ? & Es & _). destruct D; discriminate.
  - destruct (match_here false (fst regra_lista) (c :: x)) as [m|] eqn:E.
    + apply match_here_lista_inv in E.
      destruct E as (D & W & L & z & Es & (HD & HDd & HW & HWs & HL)).
      rewrite Es. rewrite (lista_hit D W L z); [|repeat split; assumption].
      cbn [app]. apply lista_estavel_digits; [exact HDd|exact HL|].
      apply estavel_cons_miss; [apply lista_head; exact dot_not_decimal|].
      apply estavel_cons_miss; [apply lista_head; exact space_not_decimal|].
      apply estavel_cons_miss;
        [apply lista_head; exact (maiuscula_not_decimal L HL)|].
      apply (IH (length z)); [|reflexivity].
      rewrite Hn, Es, length_app. cbn [length]. rewrite length_app.
      cbn [length]. lia.
    + rewrite (regra_miss _ _ _ E). apply estavel_cons_miss.
      * apply lista_miss_stable. exact E.
      * apply (IH (length x)); [|reflexivity]. rewrite Hn. cbn [length]. lia.
Qed.
End StabilityLista.

Section StabilityBoth.
Context {U : Unicode}.

Lemma lista_text_no_dollar (D W : str) (L : char) :
  Forall (fun c => isdecimal c = true) D ->
  Forall (fun c => isspace c = true) W -> maiuscula L = true ->
  ~ In chr_dollar (D ++ chr_dot :: W ++ [L]).
Proof.
  intros HD HW HL Hin. apply in_app_or in Hin. destruct Hin as [Hin|Hin].
  - rewrite Forall_forall in HD. apply HD in Hin.
    rewrite dollar_not_decimal in Hin. discriminate.
  - destruct Hin as [Hin|Hin]; [discriminate|].
    apply in_app_or in Hin. destruct Hin as [Hin|Hin].
    + rewrite Forall_forall in HW. apply HW in Hin.
      rewrite dollar_not_space in Hin. discriminate.
    + destruct Hin as [->|[]]. discriminate.
Qed.

(** A match of the list rule in the output of the currency rule lies on
    the same text in its input. *)
Lemma lista_match_moeda (c : char) (y : str) (m : rmatch) :
  match_here false (fst regra_lista)
    (c :: aplicar_regra false regra_moeda y) = Some m ->
  (forall m2, match_here false (fst regra_lista) (c :: y) = Some m2 ->
              expand (snd regra_lista) m2 = m_text m2) ->
  expand (snd regra_lista) m = m_text m.
Proof.
  intros Hm Hin. pose proof Hm as Hshape.
  apply match_here_lista_inv in Hshape.
  destruct Hshape as (D & W & L & z & Es & Hf).
  pose proof Hf as (HD & HDd & HW & HWs & HL).
  destruct D as [|d D]; [contradiction|]. cbn [app] in Es.
  injection Es as -> Es. inversion HDd; subst.
  assert (Hp : starts_with (D ++ chr_dot :: W ++ [L]) y = true).
  { apply moeda_prefix.
    - apply lista_text_no_dollar; assumption.
    - rewrite Es.
      replace (D ++ chr_dot :: W ++ L :: z)
        with ((D ++ chr_dot :: W ++ [L]) ++ z).
      + apply starts_with_self_app.
      + rewrite <- app_assoc. cbn [app]. rewrite <- app_assoc. reflexivity. }
  apply starts_with_app in Hp. destruct Hp as [rest Hy].
  assert (Hy' : d :: y = (d :: D) ++ chr_dot :: W ++ L :: rest).
  { rewrite Hy. cbn [app]. rewrite <- app_assoc. cbn [app].
    rewrite <- app_assoc. reflexivity. }
  destruct (match_here_lista_hit (d :: D) W L rest Hf)
    as (m2 & Hm2 & _ & Ht2 & He2).
  rewrite <- Hy' in Hm2. specialize (Hin m2 Hm2).
  destruct (match_here_lista_hit (d :: D) W L z Hf)
    as (m3 & Hm3 & _ & Ht3 & He3).
  cbn [app] in Hm3. rewrite <- Es in Hm3. rewrite Hm3 in Hm.
  injection Hm as <-. rewrite He3, Ht3, <- He2, <- Ht2. exact Hin.
Qed.

(** The currency rule keeps a text stable under the list rule. *)
Lemma lista_estavel_moeda (x : str) :
  estavel false regra_lista x ->
  estavel false regra_lista (aplicar_regra false regra_moeda x).
Proof.
  remember (length x) as n eqn:Hn. revert x Hn.
  induction n as [n IH] using lt_wf_ind. intros x Hn Hx.
  destruct x as [|c x].
  - rewrite moeda_nil. exact Hx.
  - destruct (match_here false (fst regra_moeda) (c :: x)) as [m|] eqn:E.
    + apply match_here_moeda_inv in E.
      destruct E as (W & d & z & Es & Hf). rewrite Es.
      rewrite (moeda_hit W d z Hf). cbn [app].
      assert (Hdz : estavel false regra_lista (d :: z)).
      { pose proof (estavel_skipn false regra_lista (2 + length W) _ Hx) as H.
        rewrite Es in H. cbn [Nat.add skipn] in H.
        rewrite skipn_length_app in H. exact H. }
      apply estavel_cons_miss; [apply lista_head; exact R_not_decimal|].
      apply estavel_cons_miss; [apply lista_head; exact dollar_not_decimal|].
      apply estavel_cons_miss; [apply lista_head; exact space_not_decimal|].
      apply estavel_cons.
      * intros m' Hm'. apply (lista_match_moeda d z m' Hm').
        intros m2 Hm2. exact (Hdz 0 m2 Hm2).
      * apply (IH (length z)); [|reflexivity|].
        -- rewrite Hn, Es. cbn [length]. rewrite length_app. cbn [length]. lia.
        -- exact (estavel_tail false regra_lista d z Hdz).
    + rewrite (regra_miss _ _ _ E). apply estavel_cons.
      * intros m' Hm'. apply (lista_match_moeda c x m' Hm').
        intros m2 Hm2. exact (Hx 0 m2 Hm2).
      * apply (IH (length x)); [|reflexivity|].
        -- rewrite Hn. cbn [length]. lia.
        -- exact (estavel_tail false regra_lista c x Hx).
Qed.

(** The two spacing rules, applied in the order of [estruturas], are
    idempotent. *)
Lemma espacamento_idempotente (t : str) :
  aplicar false [regra_lista; regra_moeda]
    (aplicar false [regra_lista; regra_moeda] t) =
  aplicar false [regra_lista; regra_moeda] t.
Proof.
  unfold aplicar. cbn [fold_left].
  set (y := aplicar_regra false regra_moeda (aplicar_regra false regra_lista t)).
  assert (H7 : estavel false regra_lista y).
  { apply lista_estavel_moeda. apply lista_estavel. }
  assert (H8 : estavel false regra_moeda y) by apply moeda_estavel.
  rewrite (estavel_id regra_lista y H7). apply (estavel_id regra_moeda y H8).
Qed.
End StabilityBoth.

(** ** The labels and the spacing rules *)

Section Labels.
Context {U : Unicode}.

Lemma occurs_skip_digits (a : char) (p D y : str) :
  isdecimal a = false -> Forall (fun c => isdecimal c = true) D ->
  occurs (a :: p) (D ++ y) = true -> occurs (a :: p) y = true.
Proof.
  intros Ha HD. induction HD as [|d D Hd _ IH]; intros H; [exact H|].
  cbn [app] in H. apply occurs_cons_inv in H. destruct H as [H|H].
  - apply starts_with_cons_inv in H. destruct H as [-> _]. congruence.
  - apply IH. exact H.
Qed.

(** A label found in the output of the currency rule is in its input. *)
Lemma moeda_occurs (a : char) (p s : str) :
  isdecimal a = false -> isspace a = false -> ~ In chr_dollar (a :: p) ->
  occurs (a :: p) (aplicar_regra false regra_moeda s) = true ->
  occurs (a :: p) s = true.
Proof.
  intros Had Has Hp.
  remember (length s) as n eqn:Hn. revert s Hn.
  induction n as [n IH] using lt_wf_ind. intros s Hn H.
  destruct s as [|c s]; [rewrite moeda_nil in H; discriminate|].
  assert (H0 : starts_with (a :: p) (aplicar_regra false regra_moeda (c :: s))
               = true -> occurs (a :: p) (c :: s) = true).
  { intros Hs. apply occurs_here. apply moeda_prefix; assumption. }
  destruct (match_here false (fst regra_moeda) (c :: s)) as [m|] eqn:E.
  - apply match_here_moeda_inv in E.
    destruct E as (W & d & z & Es & Hf). rewrite Es in *.
    rewrite (moeda_hit W d z Hf) in H, H0. cbn [app] in H, H0.
    apply occurs_cons_inv in H. destruct H as [H|H]; [exact (H0 H)|].
    apply occurs_cons_inv in H. destruct H as [H|H].
    { apply starts_with_cons_inv in H. destruct H as [-> _].
      exfalso. apply Hp. left. reflexivity. }
    apply occurs_cons_inv in H. destruct H as [H|H].
    { apply starts_with_cons_inv in H. destruct H as [-> _].
      rewrite space_is_space in Has. discriminate. }
    apply occurs_cons_inv in H. destruct H as [H|H].
    { apply starts_with_cons_inv in H. destruct H as [-> _].
      destruct Hf as [_ Hd]. congruence. }
    apply (IH (length z)) in H; [| |reflexivity].
    + apply (occurs_app_r _ (chr_R :: chr_dollar :: W ++ [d])) in H.
      cbn [app] in H. rewrite <- app_assoc in H. exact H.
    + rewrite Hn. cbn [length]. rewrite length_app. cbn [length]. lia.
  - rewrite (regra_miss _ _ _ E) in H, H0.
    apply occurs_cons_inv in H. destruct H as [H|H]; [exact (H0 H)|].
    apply occurs_cons. apply (IH (length s)); [|reflexivity|exact H].
    rewrite Hn. cbn [length]. lia.
Qed.

(** A label found in the output of the list rule is in its input. *)
Lemma lista_occurs (a : char) (p s : str) :
  isdecimal a = false -> isspace a = false -> ~ In chr_dot (a :: p) ->
  occurs (a :: p) (aplicar_regra false regra_lista s) = true ->
  occurs (a :: p) s = true.
Proof.
  intros Had Has Hp.
  remember (length s) as n eqn:Hn. revert s Hn.
  induction n as [n IH] using lt_wf_ind. intros s Hn H.
  destruct s as [|c s]; [rewrite lista_nil in H; discriminate|].
  destruct (match_here false (fst regra_lista) (c :: s)) as [m|] eqn:E.
  - apply match_here_lista_inv in E.
    destruct E as (D & W & L & z & Es & Hf). rewrite Es in *.
    rewrite (lista_hit D W L z Hf) in H.
    destruct Hf as (_ & HDd & _ & _ & _).
    apply (occurs_skip_digits a p D _ Had HDd) in H. cbn [app] in H.
    apply occurs_app_r.
    apply occurs_cons_inv in H. destruct H as [H|H].
    { apply starts_with_cons_inv in H. destruct H as [-> _].
      exfalso. apply Hp. left. reflexivity. }
    apply occurs_cons. apply occurs_app_r.
    apply occurs_cons_inv in H. destruct H as [H|H].
    { apply starts_with_cons_inv in H. destruct H as [-> _].
      rewrite space_is_space in Has. discriminate. }
    apply occurs_cons_inv in H. destruct H as [H|H].
    + apply occurs_here. apply starts_with_cons_inv in H.
      destruct H as [-> H]. cbn [starts_with]. rewrite N.eqb_refl.
      apply lista_prefix; [|exact H]. intros Hin. apply Hp. right. exact Hin.
    + apply occurs_cons. apply (IH (length z)); [|reflexivity|exact H].
      rewrite Hn, length_app. cbn [length]. rewrite length_app.
      cbn [length]. lia.
  - rewrite (regra_miss _ _ _ E) in H.
    apply occurs_cons_inv in H. destruct H as [H|H].
    + apply occurs_here. apply lista_prefix; [exact Hp|].
      rewrite (regra_miss _ _ _ E). exact H.
    + apply occurs_cons. apply (IH (length s)); [|reflexivity|exact H].
      rewrite Hn. cbn [length]. lia.
Qed.

(** The labels start with a capital and hold neither "." nor "$". *)
Lemma rotulos_shape (rotulo : str) :
  In rotulo rotulos ->
  exists a p, rotulo = a :: p /\ maiuscula a = true /\
              ~ In chr_dot (a :: p) /\ ~ In chr_dollar (a :: p).
Proof.
  intros H. cbn [rotulos In] in H.
  repeat (destruct H as [<-|H];
          [eexists _, _; split; [vm_compute; reflexivity|];
           split; [reflexivity|];
           split; intros Hin; vm_compute in Hin;
           repeat (destruct Hin as [Hin|Hin]; [discriminate|]); exact Hin|]).
  destruct H.
Qed.

Lemma rotulos_occurs (rotulo t : str) :
  In rotulo rotulos ->
  occurs rotulo (aplicar false [regra_lista; regra_moeda] t) = true ->
  occurs rotulo t = true.
Proof.
  intros Hin H. destruct (rotulos_shape rotulo Hin) as (a & p & -> & Ha & H1 & H2).
  unfold aplicar in H. cbn [fold_left] in H.
  apply moeda_occurs in H;
    [|exact (maiuscula_not_decimal a Ha)|exact (maiuscula_not_space a Ha)
     |exact H2].
  apply lista_occurs in H;
    [exact H|exact (maiuscula_not_decimal a Ha)
     |exact (maiuscula_not_space a Ha)|exact H1].
Qed.

(** *** The six rules that insert line breaks look for their label *)

Lemma match_here_label (r : regex) (rotulo : str) (tail : list atom)
      (s : str) :
  atoms_of r = lits rotulo ++ tail ->
  (forall s', match_atoms false tail s' <> None) ->
  (match_here false r s = None <-> starts_with rotulo s = false).
Proof.
  intros Hr Htail. unfold match_here. rewrite Hr. split.
  - intros H. destruct (starts_with rotulo s) eqn:E; [|reflexivity].
    apply starts_with_app in E. destruct E as [rest ->].
    pose proof (match_atoms_lits false rotulo tail rest (Htail rest)) as Hm.
    destruct (match_atoms false (lits rotulo ++ tail) (rotulo ++ rest));
      [discriminate|contradiction].
  - intros H. rewrite (match_atoms_lits_miss rotulo tail s H). reflexivity.
Qed.

Lemma re_search_label (r : regex) (rotulo : str) (tail : list atom)
      (s : str) :
  atoms_of r = lits rotulo ++ tail ->
  (forall s', match_atoms false tail s' <> None) ->
  re_search false r s = occurs rotulo s.
Proof.
  intros Hr Htail. induction s as [|c s IH]; cbn [re_search occurs].
  - pose proof (match_here_label r rotulo tail [] Hr Htail) as [H1 H2].
    destruct (match_here false r []); destruct (starts_with rotulo []);
      try reflexivity.
    + discriminate (H2 eq_refl).
    + discriminate (H1 eq_refl).
  - pose proof (match_here_label r rotulo tail (c :: s) Hr Htail) as [H1 H2].
    destruct (match_here false r (c :: s));
      destruct (starts_with rotulo (c :: s)); try reflexivity.
    + discriminate (H2 eq_refl).
    + discriminate (H1 eq_refl).
    + exact IH.
Qed.

Lemma match_atoms_nil_tail (s : str) : match_atoms false [] s <> None.
Proof. discriminate. Qed.

Lemma match_atoms_optional_tail (n1 n2 : node) (h1 h2 : option nat) (s : str) :
  match_atoms false [Rep n1 0 h1; Rep n2 0 h2] s <> None.
Proof.
  apply (match_atoms_rep _ _ _ _ _ _ 0); [lia|].
  apply (match_atoms_rep _ _ _ _ _ _ 0); [lia|]. discriminate.
Qed.

(** The first six rules of [estruturas] match exactly where their label
    occurs. *)
Lemma estruturas_rotulos (k : nat) (regra : regex * repl) (s : str) :
  nth_error (firstn 6 estruturas) k = Some regra ->
  exists rotulo, nth_error rotulos k = Some rotulo /\
                 re_search false (fst regra) s = occurs rotulo s.
Proof.
  intros H.
  do 3 (destruct k as [|k];
        [injection H as <-; eexists; split; [reflexivity|];
         apply (re_search_label _ _ []);
           [rewrite app_nil_r; reflexivity|apply match_atoms_nil_tail]|]).
  do 3 (destruct k as [|k];
        [injection H as <-; eexists; split; [reflexivity|];
         eapply re_search_label;
           [reflexivity|apply match_atoms_optional_tail]|]).
  destruct k; discriminate.
Qed.
End Labels.

(** C2, as the code behaves: [estruturar_texto] is idempotent on the texts
    in which none of the six rules that insert line breaks (the three
    section headers and the three key labels) matches: for such a text
    structuring the structured text again changes nothing. *)
Theorem estruturar_texto_idempotente {U : Unicode} (t : str) :
  (forall regra, In regra (firstn 6 estruturas) ->
                 re_search false (fst regra) t = false) ->
  estruturar_texto (estruturar_texto t) = estruturar_texto t.
Proof.
  intros Ht.
  assert (Hsplit : estruturas =
                   firstn 6 estruturas ++ [regra_lista; regra_moeda])
    by reflexivity.
  assert (He : forall x,
             (forall regra, In regra (firstn 6 estruturas) ->
                            re_search false (fst regra) x = false) ->
             estruturar_texto x = aplicar false [regra_lista; regra_moeda] x).
  { intros x Hx. unfold estruturar_texto. rewrite Hsplit at 1.
    rewrite aplicar_app, (aplicar_absent _ _ _ Hx). reflexivity. }
  rewrite (He t Ht). rewrite He.
  - apply espacamento_idempotente.
  - intros regra Hin. apply In_nth_error in Hin. destruct Hin as [k Hk].
    destruct (estruturas_rotulos k regra
                (aplicar false [regra_lista; regra_moeda] t) Hk)
      as (rotulo & Hr & ->).
    destruct (occurs rotulo (aplicar false [regra_lista; regra_moeda] t))
      eqn:E; [|reflexivity].
    apply rotulos_occurs in E; [|eapply nth_error_In; exact Hr].
    destruct (estruturas_rotulos k regra t Hk) as (rotulo' & Hr' & Hs).
    rewrite Hr in Hr'. injection Hr' as <-.
    rewrite <- Hs, (Ht regra) in E; [discriminate|].
    eapply nth_error_In. exact Hk.
Qed.

Lemma estruturar_texto_idempotente_witness :
  (forall regra, In regra (firstn 6 estruturas) ->
     re_search (U:=latin1) false (fst regra) u"1.   Total R$750,00" = false) /\
  estruturar_texto (U:=latin1)
    (estruturar_texto (U:=latin1) u"1.   Total R$750,00") =
  estruturar_texto (U:=latin1) u"1.   Total R$750,00".
Proof.
  assert (H : forall regra, In regra (firstn 6 estruturas) ->
            re_search (U:=latin1) false (fst regra) u"1.   Total R$750,00"
            = false).
  { intros regra Hin. cbn [firstn estruturas In] in Hin.
    repeat (destruct Hin as [<-|Hin]; [vm_compute; reflexivity|]).
    destruct Hin. }
  split; [exact H|].
  exact (estruturar_texto_idempotente (U:=latin1) u"1.   Total R$750,00" H).
Defined.

(** C2 as stated fails: on "PRESTADOR DE SERVIÇOS" the first application
    puts two line breaks before the header and a separator line after it,
    and the second application does it once more. *)
Lemma estruturar_texto_not_idempotent :
  estruturar_texto (U:=latin1) u"PRESTADOR DE SERVIÇOS" =
    [chr_nl; chr_nl] ++ u"PRESTADOR DE SERVIÇOS" ++ [chr_nl] ++ traco30 /\
  estruturar_texto (U:=latin1)
    (estruturar_texto (U:=latin1) u"PRESTADOR DE SERVIÇOS") =
    [chr_nl; chr_nl; chr_nl; chr_nl] ++ u"PRESTADOR DE SERVIÇOS" ++
    [chr_nl] ++ traco30 ++ [chr_nl] ++ traco30 /\
  estruturar_texto (U:=latin1)
    (estruturar_texto (U:=latin1) u"PRESTADOR DE SERVIÇOS") <>
  estruturar_texto (U:=latin1) u"PRESTADOR DE SERVIÇOS".
Proof.
  repeat split; try (vm_compute; reflexivity). vm_compute. discriminate.
Qed.

(** ** Patterns that stay within a line *)

Lemma first_down_ext {A : Type} (f g : nat -> option A) (lo k : nat) :
  (forall j, j <= k -> f j = g j) -> first_down f lo k = first_down g lo k.
Proof.
  induction k as [|k IH]; intros H; cbn [first_down].
  - rewrite (H 0) by lia. reflexivity.
  - rewrite (H (S k)) by lia. rewrite IH; [reflexivity|].
    intros j Hj. apply H. lia.
Qed.

Lemma skipn_app_le {A : Type} (k : nat) (a b : list A) :
  k <= length a -> skipn k (a ++ b) = skipn k a ++ b.
Proof.
  revert a. induction k as [|k IH]; intros a H; [reflexivity|].
  destruct a as [|x a]; [cbn [length] in H; lia|].
  cbn [app skipn]. apply IH. cbn [length] in H. lia.
Qed.

Lemma firstn_app_le {A : Type} (k : nat) (a b : list A) :
  k <= length a -> firstn k (a ++ b) = firstn k a.
Proof.
  revert a. induction k as [|k IH]; intros a H; [reflexivity|].
  destruct a as [|x a]; [cbn [length] in H; lia|].
  cbn [app firstn]. f_equal. apply IH. cbn [length] in H. lia.
Qed.



Section Lines.
Context {U : Unicode}.
Variable ic : bool.





End Lines.

(** ** The key-label rules, line by line *)

Section KeyLabels.
Context {U : Unicode}.



End KeyLabels.




(** The structured form of the date line and of the code line alone. *)
Example estruturar_texto_emissao {U : Unicode} :
  estruturar_texto u"Data e Hora de Emissão: 16/09/2024 10:30:00" =
  [chr_nl] ++ u"Data e Hora de Emissão: ".
Proof.
  unfold estruturar_texto.
  rewrite (aplicar_latin1 (U:=U)) by (vm_compute; reflexivity). reflexivity.
Qed.

Example estruturar_texto_codigo {U : Unicode} :
  estruturar_texto u"Código de Verificação: B9OXB608" =
  [chr_nl] ++ u"Código de Verificação: ".
Proof.
  unfold estruturar_texto.
  rewrite (aplicar_latin1 (U:=U)) by (vm_compute; reflexivity). reflexivity.
Qed.

(** * Further properties *)

(** ** [str.split], [str.join] and [str.replace] as the merge uses them *)

Lemma split_go_cons (sep s : str) (k : nat) :
  exists seg segs, split_go sep s k = seg :: segs.
Proof.
  revert k. induction s as [|c s IH]; intros k; cbn [split_go].
  - eexists _, _. reflexivity.
  - destruct k as [|k]; [|apply IH].
    destruct (starts_with sep (c :: s)); [eexists _, _; reflexivity|].
    destruct (IH 0) as (seg & segs & ->). eexists _, _. reflexivity.
Qed.

Lemma str_join_cons (sep p : str) (q : str) (rest : list str) :
  str_join sep (p :: q :: rest) = p ++ sep ++ str_join sep (q :: rest).
Proof. reflexivity. Qed.

Lemma str_join_head (sep : str) (c : char) (seg : str) (segs : list str) :
  str_join sep ((c :: seg) :: segs) = c :: str_join sep (seg :: segs).
Proof. destruct segs; reflexivity. Qed.

Lemma split_go_join (sep s : str) (k : nat) :
  sep <> [] -> k <= length s ->
  str_join sep (split_go sep s k) = skipn k s.
Proof.
  intros Hsep. revert k. induction s as [|c s IH]; intros k Hk.
  - cbn [length] in Hk. replace k with 0 by lia. reflexivity.
  - cbn [length] in Hk. destruct k as [|k]; cbn [split_go skipn].
    + destruct (starts_with sep (c :: s)) eqn:E.
      * apply starts_with_app in E. destruct E as [rest E].
        destruct sep as [|a sep]; [contradiction|].
        cbn [app] in E. injection E as -> ->.
        destruct (split_go_cons (a :: sep) (sep ++ rest) (length (a :: sep) - 1))
          as (seg & segs & Es).
        rewrite Es, str_join_cons, <- Es. cbn [app]. rewrite IH.
        -- replace (length (a :: sep) - 1) with (length sep)
             by (cbn [length]; lia).
           rewrite skipn_length_app. reflexivity.
        -- cbn [length]. rewrite length_app. lia.
      * destruct (split_go_cons sep s 0) as (seg & segs & Es).
        rewrite Es, str_join_head, <- Es, (IH 0) by lia. reflexivity.
    + apply IH. lia.
Qed.

(** X1: joining the segments of a split with the separator gives the text
    back: [sep.join(s.split(sep)) == s] for every non-empty separator. *)
Theorem str_split_join (sep s : str) :
  sep <> [] -> str_join sep (str_split sep s) = s.
Proof. intros H. apply (split_go_join sep s 0 H). lia. Qed.

Lemma str_split_join_witness :
  marcador <> [] /\
  str_join marcador (str_split marcador u"a R$ 1 R$ 2") = u"a R$ 1 R$ 2".
Proof.
  assert (H : marcador <> []) by discriminate.
  split; [exact H|]. exact (str_split_join marcador u"a R$ 1 R$ 2" H).
Defined.

Lemma split_go_skip (sep s : str) (k : nat) :
  k <= length s -> split_go sep s k = split_go sep (skipn k s) 0.
Proof.
  revert k. induction s as [|c s IH]; intros k Hk.
  - cbn [length] in Hk. replace k with 0 by lia. reflexivity.
  - destruct k as [|k]; [reflexivity|]. cbn [split_go skipn].
    apply IH. cbn [length] in Hk. lia.
Qed.

Lemma split_last_clean (sep s : str) :
  sep <> [] -> occurs sep (last (str_split sep s) []) = false.
Proof.
  intros Hsep. unfold str_split.
  remember (length s) as n eqn:Hn. revert s Hn.
  induction n as [n IH] using lt_wf_ind. intros s Hn.
  destruct s as [|c s].
  - cbn [split_go last occurs]. destruct sep; [contradiction|reflexivity].
  - cbn [split_go]. destruct (starts_with sep (c :: s)) eqn:E.
    + pose proof E as E'. apply starts_with_app in E'.
      destruct E' as [rest E']. destruct sep as [|a sep]; [contradiction|].
      cbn [app] in E'. injection E' as -> ->.
      destruct (split_go_cons (a :: sep) (sep ++ rest) (length (a :: sep) - 1))
        as (seg & segs & Es).
      rewrite Es.
      change (last ([] :: seg :: segs) []) with (last (seg :: segs) []).
      rewrite <- Es.
      rewrite split_go_skip by (cbn [length]; rewrite length_app; lia).
      apply (IH (length (skipn (length (a :: sep) - 1) (sep ++ rest))));
        [|reflexivity].
      rewrite Hn, length_skipn. cbn [length]. lia.
    + destruct (split_go_cons sep s 0) as (seg & segs & Es).
      pose proof (IH (length s) ltac:(rewrite Hn; cbn [length]; lia) s eq_refl)
        as Hs.
      rewrite Es in Hs |- *. destruct segs as [|seg2 segs].
      * cbn [last] in Hs |- *.
        pose proof (split_go_join sep s 0 Hsep ltac:(lia)) as Hj.
        rewrite Es in Hj. cbn [str_join skipn] in Hj. subst seg.
        cbn [occurs]. rewrite E, Hs. reflexivity.
      * exact Hs.
Qed.

(** X2: the text the merge puts in the place of a currency marker, the
    segment of the secondary text after its last "R$", never contains
    "R$" itself. *)
Theorem mesclar_tail_clean (texto_numerico : str) :
  occurs marcador (last (str_split marcador texto_numerico) []) = false.
Proof. apply split_last_clean. discriminate. Qed.

Lemma replace_go_absent (old new s : str) :
  occurs old s = false -> replace_go old new s 0 = s.
Proof.
  induction s as [|c s IH]; intros H; [reflexivity|].
  apply occurs_cons_false in H. destruct H as [Hhd Htl].
  cbn [replace_go]. rewrite Hhd, (IH Htl). reflexivity.
Qed.

(** X3: when the primary text holds no "R$" (the second pass ran because
    of "CNPJ" or "CPF"), the merge returns the primary text unchanged,
    whatever the second pass read. *)
Theorem mesclar_sem_ocorrencia (texto texto_numerico : str) :
  occurs marcador texto = false -> mesclar texto texto_numerico = texto.
Proof.
  intros H. unfold mesclar. change marcador with [chr_R; chr_dollar] in *.
  cbn [str_replace]. apply replace_go_absent. exact H.
Qed.

Lemma mesclar_sem_ocorrencia_witness :
  occurs marcador u"CNPJ 49.621.411/0001-93" = false /\
  gatilho_numerico u"CNPJ 49.621.411/0001-93" = true /\
  mesclar u"CNPJ 49.621.411/0001-93" u"R$ 750,00" = u"CNPJ 49.621.411/0001-93".
Proof.
  split; [reflexivity|]. split; [reflexivity|].
  exact (mesclar_sem_ocorrencia u"CNPJ 49.621.411/0001-93" u"R$ 750,00" eq_refl).
Defined.

Lemma occurs_pair_cons (a b c : char) (x : str) :
  occurs [a; b] (c :: x) =
  ((a =? c)%N && starts_with [b] x) || occurs [a; b] x.
Proof. reflexivity. Qed.

(** Two clean texts stay clean when put together, unless the first ends
    with the first character of the pair. *)
Lemma occurs_pair_app (a b : char) (x y : str) (d : char) :
  x <> [] -> last x d <> a ->
  occurs [a; b] x = false -> occurs [a; b] y = false ->
  occurs [a; b] (x ++ y) = false.
Proof.
  intros Hne Hlast Hx Hy. induction x as [|c x IH]; [contradiction|].
  destruct x as [|c' x].
  - cbn [app last] in *. rewrite occurs_pair_cons, Hy.
    destruct (N.eqb_spec a c) as [->|]; [contradiction|reflexivity].
  - rewrite occurs_pair_cons in Hx. apply orb_false_iff in Hx.
    destruct Hx as [Hhd Htl].
    change ((c :: c' :: x) ++ y) with (c :: (c' :: x) ++ y).
    rewrite occurs_pair_cons. rewrite IH; [|discriminate|exact Hlast|exact Htl].
    rewrite orb_false_r. cbn [app starts_with] in Hhd |- *. exact Hhd.
Qed.

Lemma replace_go_marker_clean (new p : str) (d : char) :
  new <> [] -> hd d new <> chr_dollar -> last new d <> chr_R ->
  occurs [chr_R; chr_dollar] new = false ->
  occurs [chr_R; chr_dollar] (replace_go [chr_R; chr_dollar] new p 0) = false /\
  (starts_with [chr_dollar] (replace_go [chr_R; chr_dollar] new p 0) = true ->
   starts_with [chr_dollar] p = true).
Proof.
  intros Hne Hhd Hlast Hnew.
  remember (length p) as n eqn:Hn. revert p Hn.
  induction n as [n IH] using lt_wf_ind. intros p Hn.
  destruct p as [|c p]; [split; [reflexivity|intros H; exact H]|].
  cbn [replace_go]. destruct (starts_with [chr_R; chr_dollar] (c :: p)) eqn:E.
  - pose proof E as E'. apply starts_with_app in E'. destruct E' as [rest E'].
    cbn [app] in E'. injection E' as -> ->.
    cbn [length Nat.sub replace_go].
    destruct (IH (length rest)
                ltac:(rewrite Hn; cbn [length]; lia) rest eq_refl) as [H1 _].
    split.
    + apply (occurs_pair_app _ _ _ _ d); assumption.
    + destruct new as [|n0 new]; [contradiction|]. cbn [hd] in Hhd.
      cbn [app starts_with]. destruct (N.eqb_spec chr_dollar n0) as [<-|];
        [contradiction|discriminate].
  - destruct (IH (length p) ltac:(rewrite Hn; cbn [length]; lia) p eq_refl)
      as [H1 H2].
    split.
    + rewrite occurs_pair_cons, H1, orb_false_r.
      destruct (N.eqb_spec chr_R c) as [<-|]; [|reflexivity].
      destruct (starts_with [chr_dollar]
                  (replace_go [chr_R; chr_dollar] new p 0)) eqn:Es;
        [|reflexivity].
      specialize (H2 eq_refl). cbn [starts_with] in E.
      rewrite N.eqb_refl in E. cbn [starts_with] in H2. cbn [andb] in E.
      congruence.
    + cbn [starts_with]. intros H. exact H.
Qed.

(** X4: when the segment after the last "R$" of the secondary text is not
    empty, does not start with "$" and does not end with "R", the merged
    text contains no "R$" at all: every marker of the primary text is
    gone and none is created. *)
Theorem mesclar_remove_marcador (texto texto_numerico : str) :
  last (str_split marcador texto_numerico) [] <> [] ->
  hd chr_space (last (str_split marcador texto_numerico) []) <> chr_dollar ->
  last (last (str_split marcador texto_numerico) []) chr_space <> chr_R ->
  occurs marcador (mesclar texto texto_numerico) = false.
Proof.
  intros H1 H2 H3. unfold mesclar.
  pose proof (split_last_clean marcador texto_numerico ltac:(discriminate))
    as Hc.
  change marcador with [chr_R; chr_dollar] in *. cbn [str_replace].
  apply (replace_go_marker_clean _ texto chr_space); assumption.
Qed.

Lemma mesclar_remove_marcador_witness :
  (last (str_split marcador u"garbage R$ 750,00") [] <> [] /\
   hd chr_space (last (str_split marcador u"garbage R$ 750,00") [])
     <> chr_dollar /\
   last (last (str_split marcador u"garbage R$ 750,00") []) chr_space
     <> chr_R) /\
  occurs marcador u"Total R$ XXXX" = true /\
  occurs marcador (mesclar u"Total R$ XXXX" u"garbage R$ 750,00") = false.
Proof.
  assert (H1 : last (str_split marcador u"garbage R$ 750,00") [] <> [])
    by (vm_compute; discriminate).
  assert (H2 : hd chr_space (last (str_split marcador u"garbage R$ 750,00") [])
               <> chr_dollar) by (vm_compute; discriminate).
  assert (H3 : last (last (str_split marcador u"garbage R$ 750,00") [])
                 chr_space <> chr_R) by (vm_compute; discriminate).
  split; [repeat split; assumption|]. split; [reflexivity|].
  exact (mesclar_remove_marcador u"Total R$ XXXX" u"garbage R$ 750,00"
           H1 H2 H3).
Defined.

(** ** More on the validator *)

Lemma run_agree {U : Unicode} (ic : bool) (n : node) (hi : option nat)
      (s s' : str) (j : nat) :
  j <= run ic n hi s -> firstn j s = firstn j s' -> j <= run ic n hi s'.
Proof.
  revert hi s s'. induction j as [|j IH]; intros hi s s' Hj Heq; [lia|].
  destruct s as [|c s]; [cbn [run] in Hj; lia|].
  destruct s' as [|c' s']; [discriminate|].
  cbn [firstn] in Heq. injection Heq as <- Heq.
  cbn [run] in Hj |- *. destruct (node_ok ic n c); [|lia].
  destruct hi as [[|h]|]; [lia| |].
  - apply le_n_S. apply (IH (Some h) s s'); [lia|exact Heq].
  - apply le_n_S. apply (IH None s s'); [lia|exact Heq].
Qed.

(** A match only depends on the characters it consumes: it is found again
    whatever follows them. *)
Lemma match_atoms_extend {U : Unicode} (ic : bool) (rs : list atom) (s : str)
      (lens : list nat) (b : str) :
  match_atoms ic rs s = Some lens ->
  match_atoms ic rs (firstn (list_sum lens) s ++ b) <> None.
Proof.
  revert s lens. induction rs as [|x rs IH]; intros s lens H.
  - discriminate.
  - destruct x as [n|n lo hi]; cbn [match_atoms] in H.
    + destruct s as [|c s]; [discriminate|].
      destruct (node_ok ic n c) eqn:Hc; [|discriminate].
      destruct (match_atoms ic rs s) as [l|] eqn:E; [|discriminate].
      injection H as <-. rewrite list_sum_cons. cbn [Nat.add firstn app].
      cbn [match_atoms]. rewrite Hc. specialize (IH s l E).
      destruct (match_atoms ic rs (firstn (list_sum l) s ++ b));
        [discriminate|contradiction].
    + apply first_down_inv in H. destruct H as (j & Hj & Hf & _).
      destruct (match_atoms ic rs (skipn j s)) as [l|] eqn:E; [|discriminate].
      injection Hf as <-. rewrite list_sum_cons.
      pose proof (run_le ic n hi s) as Hle.
      pose proof (match_atoms_le ic rs _ _ E) as Hl.
      rewrite length_skipn in Hl.
      apply (match_atoms_rep ic n lo hi rs _ j).
      * split; [lia|]. apply (run_agree ic n hi s); [lia|].
        rewrite firstn_app_le by (rewrite length_firstn; lia).
        rewrite firstn_firstn. f_equal. lia.
      * rewrite skipn_app_le by (rewrite length_firstn; lia).
        rewrite skipn_firstn_comm.
        replace (j + list_sum l - j) with (list_sum l) by lia.
        apply IH. exact E.
Qed.

Lemma re_search_inv {U : Unicode} (ic : bool) (r : regex) (s : str) :
  re_search ic r s = true ->
  exists i, i <= length s /\ match_here ic r (skipn i s) <> None.
Proof.
  induction s as [|c s IH]; cbn [re_search]; intros H.
  - exists 0. split; [lia|]. cbn [skipn].
    destruct (match_here ic r []); [discriminate|discriminate].
  - destruct (match_here ic r (c :: s)) eqn:E.
    + exists 0. split; [lia|]. cbn [skipn]. rewrite E. discriminate.
    + destruct (IH H) as (i & Hi & Hm). exists (S i).
      split; [cbn [length]; lia|exact Hm].
Qed.

(** A pattern found in a text is found in any text that contains it. *)
Lemma re_search_context {U : Unicode} (ic : bool) (r : regex) (a t b : str) :
  re_search ic r t = true -> re_search ic r (a ++ t ++ b) = true.
Proof.
  intros H. apply re_search_inv in H. destruct H as (i & Hi & Hm).
  unfold match_here in Hm.
  destruct (match_atoms ic (atoms_of r) (skipn i t)) as [lens|] eqn:E;
    [|contradiction].
  pose proof (match_atoms_le ic _ _ _ E) as Hl.
  replace (a ++ t ++ b)
    with ((a ++ firstn i t) ++
          firstn (list_sum lens) (skipn i t) ++
          (skipn (list_sum lens) (skipn i t) ++ b)).
  - apply re_search_at. apply match_atoms_extend. exact E.
  - rewrite (app_assoc (firstn _ _)), firstn_skipn, <- app_assoc.
    rewrite (app_assoc (firstn i t)), firstn_skipn. reflexivity.
Qed.

Lemma campo_ausente_context {U : Unicode} (padroes : list regex)
      (a t b : str) :
  campo_ausente padroes (a ++ t ++ b) = true -> campo_ausente padroes t = true.
Proof.
  unfold campo_ausente. intros H. apply negb_true_iff in H.
  apply negb_true_iff. destruct (existsb _ padroes) eqn:E in |- *;
    [|reflexivity].
  apply existsb_exists in E. destruct E as (p & Hp & Hs).
  assert (Hx : existsb (fun padrao => re_search true padrao (a ++ t ++ b))
                 padroes = true).
  { apply existsb_exists. exists p. split; [exact Hp|].
    apply re_search_context. exact Hs. }
  congruence.
Qed.

Lemma validar_campos_In {U : Unicode} (texto campo : str) :
  In campo (validar_campos texto) <->
  exists padroes, In (campo, padroes) campos /\
                  campo_ausente padroes texto = true.
Proof.
  rewrite validar_campos_filter, in_map_iff. split.
  - intros ([c ps] & <- & Hin). apply filter_In in Hin.
    destruct Hin as [Hin Ha]. exists ps. split; assumption.
  - intros (ps & Hin & Ha). exists (campo, ps). split; [reflexivity|].
    apply filter_In. split; assumption.
Qed.

(** X5: the list returned by [validar_campos] has no duplicates, and a
    name is in it exactly when it is the name of a required field none of
    whose acceptable patterns is found in the text. *)
Theorem validar_campos_membros {U : Unicode} (texto : str) :
  NoDup (validar_campos texto) /\
  forall campo,
    In campo (validar_campos texto) <->
    In campo (map fst campos) /\ ~ campo_presente campo texto.
Proof.
  split.
  - rewrite validar_campos_filter.
    assert (G : forall l : list (str * list regex),
              NoDup (map fst l) ->
              NoDup (map fst (filter (fun cp => campo_ausente (snd cp) texto) l))).
    { induction l as [|[c ps] l IH]; intros H; [constructor|].
      cbn [map fst] in H. inversion H as [|? ? Hno Hnd]; subst.
      cbn [filter snd]. destruct (campo_ausente ps texto); [|apply IH, Hnd].
      cbn [map fst]. constructor; [|apply IH, Hnd].
      intros Hin. apply Hno. apply in_map_iff in Hin.
      destruct Hin as (x & Hx & Hin). apply filter_In in Hin.
      apply in_map_iff. exists x. split; [exact Hx|apply Hin]. }
    apply G. exact campos_nomes_distintos.
  - intros campo. rewrite validar_campos_In. split.
    + intros (ps & Hin & Ha). split.
      * apply in_map_iff. exists (campo, ps). split; [reflexivity|exact Hin].
      * rewrite (campo_presente_row campo ps texto campos_nomes_distintos Hin).
        congruence.
    + intros [Hin Hno]. apply in_map_iff in Hin.
      destruct Hin as ([c ps] & Hc & Hin). cbn [fst] in Hc. subst c.
      exists ps. split; [exact Hin|].
      rewrite (campo_presente_row campo ps texto campos_nomes_distintos Hin)
        in Hno.
      destruct (campo_ausente ps texto); [reflexivity|].
      exfalso. apply Hno. reflexivity.
Qed.

(** X6: a field that is found in a text is found in every text that
    contains it: surrounding a text with more text never adds a name to
    the missing fields. *)
Theorem validar_campos_context {U : Unicode} (a t b campo : str) :
  In campo (validar_campos (a ++ t ++ b)) -> In campo (validar_campos t).
Proof.
  rewrite !validar_campos_In. intros (ps & Hin & Ha).
  exists ps. split; [exact Hin|]. eapply campo_ausente_context. exact Ha.
Qed.

Lemma validar_campos_context_witness :
  In u"Valor Total"
     (validar_campos (U:=latin1) (u"NFS-e " ++ u"CNPJ" ++ u" 49.621.411/0001-93")) /\
  In u"Valor Total" (validar_campos (U:=latin1) u"CNPJ").
Proof.
  assert (H : In u"Valor Total"
                (validar_campos (U:=latin1)
                   (u"NFS-e " ++ u"CNPJ" ++ u" 49.621.411/0001-93"))).
  { vm_compute. left. reflexivity. }
  split; [exact H|].
  exact (validar_campos_context (U:=latin1) u"NFS-e " u"CNPJ"
           u" 49.621.411/0001-93" u"Valor Total" H).
Defined.

Lemma str_join_In (sep t : str) (textos : list str) :
  In t textos -> exists a b, str_join sep textos = a ++ t ++ b.
Proof.
  induction textos as [|p textos IH]; intros H; [destruct H|].
  destruct H as [->|H].
  - destruct textos as [|q textos].
    + exists [], []. cbn [str_join app]. rewrite app_nil_r. reflexivity.
    + exists [], (sep ++ str_join sep (q :: textos)). reflexivity.
  - destruct textos as [|q textos]; [destruct H|].
    destruct (IH H) as (a & b & E). exists (p ++ sep ++ a), b.
    rewrite str_join_cons, E, <- !app_assoc. reflexivity.
Qed.

(** X7: a required field that is not missing on the text of one page is
    not missing on the document: the joined text of the pages is validated
    as a whole, and what one page shows counts for all. *)
Theorem validar_campos_documento {U : Unicode} (textos : list str)
        (t campo : str) :
  In t textos -> ~ In campo (validar_campos t) ->
  ~ In campo (validar_campos (str_join [chr_nl] textos)).
Proof.
  intros Hin Hno H. apply Hno.
  destruct (str_join_In [chr_nl] t textos Hin) as (a & b & E).
  rewrite E in H. rewrite !validar_campos_In in *.
  destruct H as (ps & Hps & Ha). exists ps. split; [exact Hps|].
  eapply campo_ausente_context. exact Ha.
Qed.

Lemma validar_campos_documento_witness :
  (In u"Total R$ 750,00" [u"NFS-e"; u"Total R$ 750,00"] /\
   ~ In u"Valor Total" (validar_campos (U:=latin1) u"Total R$ 750,00")) /\
  ~ In u"Valor Total"
      (validar_campos (U:=latin1)
         (str_join [chr_nl] [u"NFS-e"; u"Total R$ 750,00"])).
Proof.
  assert (H1 : In u"Total R$ 750,00" [u"NFS-e"; u"Total R$ 750,00"])
    by (right; left; reflexivity).
  assert (H2 : ~ In u"Valor Total"
                 (validar_campos (U:=latin1) u"Total R$ 750,00")).
  { vm_compute. intros H.
    repeat (destruct H as [H|H]; [discriminate|]). exact H. }
  split; [split; assumption|].
  exact (validar_campos_documento (U:=latin1) _ _ _ H1 H2).
Defined.

(** ** More on the spacing rules *)

Lemma skipn_head_in {A : Type} (i : nat) (pre rest : list A) :
  i < length pre ->
  exists c s', skipn i (pre ++ rest) = c :: s' /\ In c pre.
Proof.
  revert i. induction pre as [|x pre IH]; intros i Hi;
    [cbn [length] in Hi; lia|].
  destruct i as [|i].
  - exists x, (pre ++ rest). split; [reflexivity|left; reflexivity].
  - cbn [length] in Hi. destruct (IH i ltac:(lia)) as (c & s' & E & Hin).
    exists c, s'. split; [exact E|right; exact Hin].
Qed.

(** X8: each of the two spacing rules of [estruturar_texto] is idempotent
    on every text, and so is their composition in the order of the rule
    table. *)
Theorem regras_de_espaco_idempotentes {U : Unicode} (t : str) :
  aplicar_regra false regra_lista (aplicar_regra false regra_lista t) =
    aplicar_regra false regra_lista t /\
  aplicar_regra false regra_moeda (aplicar_regra false regra_moeda t) =
    aplicar_regra false regra_moeda t /\
  aplicar false [regra_lista; regra_moeda]
    (aplicar false [regra_lista; regra_moeda] t) =
    aplicar false [regra_lista; regra_moeda] t.
Proof.
  split; [apply estavel_id, lista_estavel|].
  split; [apply estavel_id, moeda_estavel|].
  apply espacamento_idempotente.
Qed.

(** X9: the currency rule writes exactly one space between "R$" and the
    digit that follows: after a prefix without "R", the marker followed by
    any run of white space (none, several, line breaks) and a digit becomes
    "R$", one space and the digit, and the rule goes on with the rest. *)
Theorem regra_moeda_normaliza {U : Unicode} (pre W : str) (d : char)
        (z : str) :
  ~ In chr_R pre -> forma_moeda W d ->
  aplicar_regra false regra_moeda (pre ++ chr_R :: chr_dollar :: W ++ d :: z) =
  pre ++ [chr_R; chr_dollar; chr_space; d] ++ aplicar_regra false regra_moeda z.
Proof.
  intros Hpre Hf. rewrite <- (moeda_hit W d z Hf).
  unfold aplicar_regra, re_sub. apply sub_go_prefix.
  intros i Hi.
  destruct (skipn_head_in i pre (chr_R :: chr_dollar :: W ++ d :: z) Hi)
    as (c & s' & -> & Hin).
  apply moeda_head. intros ->. exact (Hpre Hin).
Qed.

Lemma regra_moeda_normaliza_witness :
  (~ In chr_R u"Total " /\ forma_moeda (U:=latin1) [chr_nl; chr_space] 55%N) /\
  aplicar_regra (U:=latin1) false regra_moeda
    (u"Total " ++ chr_R :: chr_dollar :: [chr_nl; chr_space] ++ 55%N :: u"50,00")
  = u"Total " ++ [chr_R; chr_dollar; chr_space; 55%N] ++
    aplicar_regra (U:=latin1) false regra_moeda u"50,00".
Proof.
  assert (H1 : ~ In chr_R u"Total ").
  { intros H. vm_compute in H.
    repeat (destruct H as [H|H]; [discriminate|]). exact H. }
  assert (H2 : forma_moeda (U:=latin1) [chr_nl; chr_space] 55%N).
  { split; [repeat constructor|reflexivity]. }
  split; [split; assumption|].
  exact (regra_moeda_normaliza (U:=latin1) u"Total " [chr_nl; chr_space] 55%N
           u"50,00" H1 H2).
Defined.

(** X10: the list rule writes exactly one space after the dot of a list
    number: after a prefix without digits, digits, a dot, any run of white
    space and a capital letter become the digits, ". " and the letter, and
    the rule goes on with the rest. *)
Theorem regra_lista_normaliza {U : Unicode} (pre D W : str) (L : char)
        (z : str) :
  Forall (fun c => isdecimal c = false) pre -> forma_lista D W L ->
  aplicar_regra false regra_lista (pre ++ D ++ chr_dot :: W ++ L :: z) =
  pre ++ D ++ [chr_dot; chr_space; L] ++ aplicar_regra false regra_lista z.
Proof.
  intros Hpre Hf. rewrite <- (lista_hit D W L z Hf).
  unfold aplicar_regra, re_sub. apply sub_go_prefix.
  intros i Hi.
  destruct (skipn_head_in i pre (D ++ chr_dot :: W ++ L :: z) Hi)
    as (c & s' & -> & Hin).
  apply lista_head. rewrite Forall_forall in Hpre. exact (Hpre c Hin).
Qed.

Lemma regra_lista_normaliza_witness :
  (Forall (fun c => isdecimal (Unicode:=latin1) c = false) u"Item " /\
   forma_lista (U:=latin1) u"12" [chr_space; chr_nl; chr_space] 65%N) /\
  aplicar_regra (U:=latin1) false regra_lista
    (u"Item " ++ u"12" ++ chr_dot :: [chr_space; chr_nl; chr_space] ++
     65%N :: u"nexo")
  = u"Item " ++ u"12" ++ [chr_dot; chr_space; 65%N] ++
    aplicar_regra (U:=latin1) false regra_lista u"nexo".
Proof.
  assert (H1 : Forall (fun c => isdecimal (Unicode:=latin1) c = false)
                 u"Item ") by (repeat constructor).
  assert (H2 : forma_lista (U:=latin1) u"12" [chr_space; chr_nl; chr_space]
                 65%N).
  { repeat split; try discriminate; repeat constructor. }
  split; [split; assumption|].
  exact (regra_lista_normaliza (U:=latin1) u"Item " u"12"
           [chr_space; chr_nl; chr_space] 65%N u"nexo" H1 H2).
Defined.

(** ** The section headers and the note number *)

Section Headers.
Context {U : Unicode}.

Lemma match_here_secao (titulo post : str) :
  exists m,
    match_here false (fst (regra_secao titulo)) (titulo ++ post) = Some m /\
    m_len m = length titulo /\ nth 0 (m_groups m) [] = titulo.
Proof.
  unfold match_here, regra_secao. cbn [fst atoms_of flat_map].
  rewrite app_nil_r.
  pose proof (match_atoms_lits_hit false titulo [] post) as H.
  rewrite app_nil_r in H. rewrite H. cbn [match_atoms option_map].
  rewrite app_nil_r. eexists. split; [reflexivity|].
  cbn [m_len m_groups captures nth]. rewrite list_sum_repeat_1.
  split; [reflexivity|].
  rewrite length_lits.
  rewrite (firstn_all2 (repeat 1 (length titulo)))
    by (rewrite repeat_length; lia).
  rewrite list_sum_repeat_1. apply firstn_length_app.
Qed.

Lemma re_sub_secao (titulo pre post : str) :
  titulo <> [] ->
  (forall i, i < length pre ->
             starts_with titulo (skipn i (pre ++ titulo)) = false) ->
  aplicar_regra false (regra_secao titulo) (pre ++ titulo ++ post) =
  pre ++ [chr_nl; chr_nl] ++ titulo ++ [chr_nl] ++ traco30 ++
  aplicar_regra false (regra_secao titulo) post.
Proof.
  intros Hne Hpre. unfold aplicar_regra, re_sub. rewrite sub_go_prefix.
  - f_equal. destruct (match_here_secao titulo post) as (m & Hm & Hl & Hg).
    rewrite (sub_go_match _ _ _ _ _ Hm).
    + cbn [regra_secao snd secao expand flat_map Nat.sub].
      rewrite Hg, Hl, skipn_length_app, app_nil_r, <- !app_assoc.
      generalize traco30 as tr. intros tr. cbn [app]. reflexivity.
    + rewrite Hl. destruct titulo; [contradiction|cbn [length]; lia].
  - intros i Hi. unfold match_here, regra_secao. cbn [fst atoms_of flat_map].
    rewrite match_atoms_lits_miss; [reflexivity|].
    rewrite skipn_app_le by lia. rewrite <- (Hpre i Hi).
    rewrite skipn_app_le by lia. rewrite (app_assoc (skipn i pre)).
    apply starts_with_prefix. rewrite length_app. lia.
Qed.

(** The match of "label:?" followed by a starred node at a label with its
    colon, when the run of the node is known. *)
Lemma match_here_rotulo (n : node) (rotulo valor post : str) :
  run false n None (valor ++ post) = length valor ->
  exists m,
    match_here false
      [Group (lits rotulo ++ [opt (Lit 58%N)]); Group [star n]]
      (rotulo ++ [chr_colon] ++ valor ++ post) = Some m /\
    m_len m = length rotulo + 1 + length valor /\
    nth 0 (m_groups m) [] = rotulo ++ [chr_colon].
Proof.
  intros Hrun. unfold match_here.
  cbn [atoms_of flat_map]. rewrite app_nil_r, <- app_assoc.
  rewrite match_atoms_lits_hit. unfold opt, star.
  cbn [app match_atoms run node_ok]. unfold lit_ok, chr_colon at 1.
  rewrite N.eqb_refl.
  assert (Hrun0 : run false (Lit 58%N) (Some 0) (valor ++ post) = 0).
  { destruct (valor ++ post) as [|c s]; [reflexivity|]. cbn [run].
    destruct (node_ok false (Lit 58%N) c); reflexivity. }
  rewrite Hrun0.
  rewrite (first_down_hit _ 0 1 [1; length valor]); [|lia|].
  - cbn [option_map]. eexists. split; [reflexivity|]. cbn [m_len m_groups].
    rewrite list_sum_app, list_sum_repeat_1. split; [cbn; lia|].
    cbn [captures nth]. rewrite length_app, length_lits. cbn [length].
    assert (E : firstn (length rotulo + 1)
                  (repeat 1 (length rotulo) ++ [1; length valor]) =
                repeat 1 (length rotulo) ++ [1]).
    { pose proof (firstn_app_2 1 (repeat 1 (length rotulo))
                    [1; length valor]) as H.
      rewrite repeat_length in H. exact H. }
    rewrite E, list_sum_app, list_sum_repeat_1.
    cbn [list_sum fold_right]. rewrite Nat.add_0_r.
    apply (firstn_app_2 1 rotulo (chr_colon :: valor ++ post)).
  - cbn [skipn match_atoms]. rewrite Hrun.
    rewrite (first_down_hit _ 0 (length valor) [length valor]);
      [reflexivity|lia|reflexivity].
Qed.

Lemma re_sub_espaco_apos (rotulo pre W z : str) :
  (forall i, i < length pre ->
             starts_with rotulo (skipn i (pre ++ rotulo)) = false) ->
  Forall (fun c => isspace c = true) W ->
  match z with [] => True | c :: _ => isspace c = false end ->
  aplicar_regra false (espaco_apos rotulo, campo_chave)
    (pre ++ rotulo ++ [chr_colon] ++ W ++ z) =
  pre ++ [chr_nl] ++ rotulo ++ [chr_colon; chr_space] ++
  aplicar_regra false (espaco_apos rotulo, campo_chave) z.
Proof.
  intros Hpre HW Hz. unfold aplicar_regra, re_sub. cbn [fst snd].
  rewrite sub_go_prefix.
  - f_equal.
    destruct (match_here_rotulo Space rotulo W z
                (run_exact false Space W z HW Hz)) as (m & Hm & Hlen & Hg).
    unfold espaco_apos.
    rewrite (sub_go_match _ _ _ _ _ Hm) by lia.
    cbn [campo_chave expand flat_map Nat.sub]. rewrite Hg, Hlen.
    replace (length rotulo + 1 + length W)
      with (length (rotulo ++ [chr_colon] ++ W))
      by (rewrite !length_app; cbn [length]; lia).
    replace (rotulo ++ [chr_colon] ++ W ++ z)
      with ((rotulo ++ [chr_colon] ++ W) ++ z)
      by (rewrite <- !app_assoc; reflexivity).
    rewrite skipn_length_app, <- !app_assoc. reflexivity.
  - intros i Hi. unfold match_here, espaco_apos.
    cbn [atoms_of flat_map]. rewrite <- app_assoc.
    rewrite match_atoms_lits_miss; [reflexivity|].
    rewrite skipn_app_le by lia. rewrite <- (Hpre i Hi).
    rewrite skipn_app_le by lia. rewrite (app_assoc (skipn i pre)).
    apply starts_with_prefix. rewrite length_app. lia.
Qed.
End Headers.

(** X11: a section header gets a block of its own.  When the text that
    reaches the rule of the [k]-th header contains the header (at its
    first occurrence), [estruturar_texto] puts two line breaks before it
    and a line break with a line of thirty dashes after it, treats the
    rest of the text with the same rule and hands the result to the rules
    that follow. *)
Theorem estruturar_texto_secao {U : Unicode} (k : nat)
        (titulo t pre post : str) :
  nth_error titulos k = Some titulo ->
  aplicar false (firstn k estruturas) t = pre ++ titulo ++ post ->
  (forall i, i < length pre ->
     starts_with titulo (skipn i (pre ++ titulo)) = false) ->
  nth_error estruturas k = Some (regra_secao titulo) /\
  estruturar_texto t =
    aplicar false (skipn (S k) estruturas)
      (pre ++ [chr_nl; chr_nl] ++ titulo ++ [chr_nl] ++ traco30 ++
       aplicar_regra false (regra_secao titulo) post).
Proof.
  intros Hk Ht Hpre.
  assert (H : titulo <> [] /\
              nth_error estruturas k = Some (regra_secao titulo) /\
              estruturas = firstn k estruturas ++ [regra_secao titulo] ++
                           skipn (S k) estruturas).
  { do 3 (destruct k as [|k];
          [injection Hk as <-; repeat split; discriminate|]).
    destruct k; discriminate. }
  destruct H as (Hne & Hnth & Hsplit). split; [exact Hnth|].
  unfold estruturar_texto. rewrite Hsplit at 1. rewrite !aplicar_app, Ht.
  unfold aplicar at 2. cbn [fold_left].
  rewrite (re_sub_secao titulo pre post Hne Hpre). reflexivity.
Qed.

Lemma estruturar_texto_secao_witness :
  estruturar_texto (U:=latin1) (u"Nota 12 " ++ u"TOMADOR DE SERVIÇOS" ++ u" Fulano") =
  aplicar (U:=latin1) false (skipn 2 estruturas)
    (u"Nota 12 " ++ [chr_nl; chr_nl] ++ u"TOMADOR DE SERVIÇOS" ++ [chr_nl] ++
     traco30 ++
     aplicar_regra (U:=latin1) false (regra_secao u"TOMADOR DE SERVIÇOS")
       u" Fulano").
Proof.
  refine (proj2 (estruturar_texto_secao (U:=latin1) 1 u"TOMADOR DE SERVIÇOS"
                   _ u"Nota 12 " u" Fulano" eq_refl _ _)).
  - vm_compute. reflexivity.
  - intros i Hi.
    do 8 (destruct i as [|i]; [vm_compute; reflexivity|]).
    exfalso. vm_compute in Hi. lia.
Defined.

(** X12: the rule of "Número da Nota" pulls the value up to the label.
    When the text that reaches the rule contains the label with its colon
    (at its first occurrence) followed by any run of white space, line
    breaks included, [estruturar_texto] puts a line break before the label
    and replaces the whole run of white space by one space; what follows
    is kept and treated by the same rule. *)
Theorem estruturar_texto_numero {U : Unicode} (t pre W z : str) :
  aplicar false (firstn 3 estruturas) t =
    pre ++ rotulo_numero ++ [chr_colon] ++ W ++ z ->
  (forall i, i < length pre ->
     starts_with rotulo_numero (skipn i (pre ++ rotulo_numero)) = false) ->
  Forall (fun c => isspace c = true) W ->
  match z with [] => True | c :: _ => isspace c = false end ->
  nth_error estruturas 3 = Some (espaco_apos rotulo_numero, campo_chave) /\
  estruturar_texto t =
    aplicar false (skipn 4 estruturas)
      (pre ++ [chr_nl] ++ rotulo_numero ++ [chr_colon; chr_space] ++
       aplicar_regra false (espaco_apos rotulo_numero, campo_chave) z).
Proof.
  intros Ht Hpre HW Hz. split; [reflexivity|].
  assert (Hsplit : estruturas =
            firstn 3 estruturas ++
            [(espaco_apos rotulo_numero, campo_chave)] ++ skipn 4 estruturas)
    by reflexivity.
  unfold estruturar_texto. rewrite Hsplit at 1. rewrite !aplicar_app, Ht.
  unfold aplicar at 2. cbn [fold_left].
  rewrite (re_sub_espaco_apos rotulo_numero pre W z Hpre HW Hz). reflexivity.
Qed.

Lemma estruturar_texto_numero_witness :
  estruturar_texto (U:=latin1)
    (u"NFS-e " ++ rotulo_numero ++ [chr_colon] ++ [chr_space; chr_nl] ++ u"123") =
  aplicar (U:=latin1) false (skipn 4 estruturas)
    (u"NFS-e " ++ [chr_nl] ++ rotulo_numero ++ [chr_colon; chr_space] ++
     aplicar_regra (U:=latin1) false (espaco_apos rotulo_numero, campo_chave)
       u"123").
Proof.
  refine (proj2 (estruturar_texto_numero (U:=latin1) _ u"NFS-e "
                   [chr_space; chr_nl] u"123" _ _ _ _)).
  - vm_compute. reflexivity.
  - intros i Hi.
    do 6 (destruct i as [|i]; [vm_compute; reflexivity|]).
    exfalso. vm_compute in Hi. lia.
  - repeat constructor.
  - reflexivity.
Defined.

(** ** The document as a whole and what [main] shows *)



Section DocumentFacts.
Context {U : Unicode}.
Variables Pagina Imagem : Type.
Variable convert_from_path : str -> result (list Pagina).
Variable para_bgr : Pagina -> result Imagem.
Variable cv2_binarizar : Imagem -> result Imagem.
Variable image_to_string : Imagem -> str -> result str.

Local Abbreviation pagina :=
  (processar_pagina para_bgr cv2_binarizar image_to_string).
Local Abbreviation laco := (paginas para_bgr cv2_binarizar image_to_string).
Local Abbreviation nfse :=
  (processar_nfse convert_from_path para_bgr cv2_binarizar image_to_string).


(** X13: a document without pages is an error.  When the rasterizer
    returns no page, no collaborator is called, the text is empty and the
    status lists the three required fields as missing, in the order of the
    table. *)
Theorem processar_nfse_sem_paginas (pdf_path : str) :
  convert_from_path pdf_path = Ok [] ->
  nfse pdf_path =
    (u"ERRO: Campos faltantes - NFS-e, CNPJ Prestador, Valor Total", []).
Proof.
  intros H. unfold processar_nfse. rewrite H. cbn [bind paginas str_join].
  vm_compute. reflexivity.
Qed.

End DocumentFacts.

Lemma processar_nfse_sem_paginas_witness :
  processar_nfse (U:=latin1) (fun _ : str => Ok (@nil str))
    sem_efeito sem_efeito ocr_eco u"vazio.pdf" =
  (u"ERRO: Campos faltantes - NFS-e, CNPJ Prestador, Valor Total", []).
Proof.
  exact (processar_nfse_sem_paginas (U:=latin1) str str
           (fun _ : str => Ok (@nil str)) sem_efeito sem_efeito ocr_eco
           u"vazio.pdf" eq_refl).
Defined.

(** ** Rules of [corrigir_erros_contextuais] *)

(** The loop over a rule table, cut at the rule of index [k]. *)
Lemma aplicar_nth {U : Unicode} (ic : bool) (regras : list (regex * repl))
      (k : nat) (regra : regex * repl) (t : str) :
  nth_error regras k = Some regra ->
  aplicar ic regras t =
  aplicar ic (skipn (S k) regras)
    (aplicar_regra ic regra (aplicar ic (firstn k regras) t)).
Proof.
  revert k t. induction regras as [|r regras IH]; intros k t H.
  - destruct k; discriminate.
  - destruct k as [|k].
    + injection H as <-. reflexivity.
    + cbn [nth_error] in H. cbn [skipn firstn]. unfold aplicar.
      cbn [fold_left]. apply (IH k _ H).
Qed.

Section CorrectionRules.
Context {U : Unicode}.

Lemma run_times (ic : bool) (n : node) (a s : str) :
  Forall (fun c => node_ok ic n c = true) a ->
  run ic n (Some (length a)) (a ++ s) = length a.
Proof.
  intros H. induction H as [|c a Hc _ IH]; cbn [app length].
  - destruct s as [|c s]; [reflexivity|]. cbn [run].
    destruct (node_ok ic n c); reflexivity.
  - cbn [run]. rewrite Hc, IH. reflexivity.
Qed.

Lemma first_down_same {A : Type} (f : nat -> option A) (k : nat) :
  first_down f k k = f k.
Proof.
  destruct k as [|k]; cbn [first_down].
  - destruct (f 0); reflexivity.
  - rewrite Nat.ltb_irrefl. destruct (f (S k)); [reflexivity|].
    destruct k as [|k]; cbn [first_down].
    + reflexivity.
    + destruct (Nat.ltb_spec (S k) (S (S k))); [reflexivity|lia].
Qed.

(** n{k} takes exactly [k] accepted characters. *)
Lemma match_atoms_times (ic : bool) (n : node) (a : str) (rs : list atom)
      (s : str) :
  Forall (fun c => node_ok ic n c = true) a ->
  match_atoms ic (times n (length a) :: rs) (a ++ s) =
  option_map (cons (length a)) (match_atoms ic rs s).
Proof.
  intros H. unfold times. cbn [match_atoms].
  rewrite (run_times ic n a s H), first_down_same, skipn_length_app.
  reflexivity.
Qed.

Lemma match_atoms_node (ic : bool) (n : node) (c : char) (rs : list atom)
      (s : str) :
  node_ok ic n c = true ->
  match_atoms ic (One n :: rs) (c :: s) =
  option_map (cons 1) (match_atoms ic rs s).
Proof. intros H. cbn [match_atoms]. rewrite H. reflexivity. Qed.

Lemma match_atoms_one (ic : bool) (c : char) (rs : list atom) (s : str) :
  match_atoms ic (One (Lit c) :: rs) (c :: s) =
  option_map (cons 1) (match_atoms ic rs s).
Proof. cbn [match_atoms node_ok]. rewrite lit_ok_same. reflexivity. Qed.

Lemma match_here_data (d1 d2 m y1 y2 y3 y4 : char) (z : str) :
  Forall (fun c => isdecimal c = true) [d1; d2; m; y1; y2; y3; y4] ->
  match_here true (fst regra_data)
    ([d1; d2; chr_slash; m; chr_slash; y1; y2; y3; y4] ++ z) =
  Some {| m_len := 9;
          m_text := [d1; d2; chr_slash; m; chr_slash; y1; y2; y3; y4];
          m_groups := [[d1; d2]; [m]; [y1; y2; y3; y4]] |}.
Proof.
  intros H.
  repeat match goal with
         | H : Forall _ (_ :: _) |- _ => inversion_clear H
         end.
  unfold match_here, regra_data.
  cbn [fst atoms_of flat_map app]. change (Lit 47%N) with (Lit chr_slash).
  change (d1 :: d2 :: chr_slash :: m :: chr_slash :: y1 :: y2 :: y3 :: y4 :: z)
    with ([d1; d2] ++ chr_slash :: [m] ++ chr_slash :: [y1; y2; y3; y4] ++ z).
  rewrite (match_atoms_times true Digit [d1; d2])
    by (repeat constructor; assumption).
  rewrite match_atoms_one.
  rewrite (match_atoms_times true Digit [m])
    by (repeat constructor; assumption).
  rewrite match_atoms_one.
  rewrite (match_atoms_times true Digit [y1; y2; y3; y4])
    by (repeat constructor; assumption).
  reflexivity.
Qed.

(** A rule that cannot match at any character of [pre] copies [pre]. *)
Lemma sub_go_prefix_heads (ic : bool) (r : regex) (rp : repl)
      (pre rest : str) :
  (forall c s, In c pre -> match_here ic r (c :: s) = None) ->
  sub_go ic r rp (pre ++ rest) 0 = pre ++ sub_go ic r rp rest 0.
Proof.
  intros H. apply sub_go_prefix. intros i Hi.
  destruct (skipn_head_in i pre rest Hi) as (c & s' & -> & Hin).
  apply H. exact Hin.
Qed.

Lemma data_head (c : char) (s : str) :
  isdecimal c = false -> match_here true (fst regra_data) (c :: s) = None.
Proof.
  intros Hc. unfold match_here, regra_data, times.
  cbn [fst atoms_of flat_map app match_atoms run node_ok]. rewrite Hc.
  reflexivity.
Qed.

Lemma re_sub_data (pre : str) (d1 d2 m y1 y2 y3 y4 : char) (z : str) :
  Forall (fun c => isdecimal c = false) pre ->
  Forall (fun c => isdecimal c = true) [d1; d2; m; y1; y2; y3; y4] ->
  aplicar_regra true regra_data
    (pre ++ [d1; d2; chr_slash; m; chr_slash; y1; y2; y3; y4] ++ z) =
  pre ++ [d1; d2; chr_slash; chr_zero; m; chr_slash; y1; y2; y3; y4] ++
  aplicar_regra true regra_data z.
Proof.
  intros Hpre Hd. unfold aplicar_regra, re_sub.
  rewrite sub_go_prefix_heads.
  - f_equal. rewrite (sub_go_match _ _ _ _ _ (match_here_data _ _ _ _ _ _ _ z Hd))
      by (cbn [m_len]; lia).
    reflexivity.
  - intros c s Hin. apply data_head.
    rewrite Forall_forall in Hpre. apply Hpre. exact Hin.
Qed.

Lemma match_here_milhar (a b c d : char) (z : str) :
  Forall (fun x => isdecimal x = true) [a; b; c; d] ->
  match_here true (fst regra_milhar) ([a; chr_zero; b; c; d] ++ z) =
  Some {| m_len := 5; m_text := [a; chr_zero; b; c; d];
          m_groups := [[a]; [b; c; d]] |}.
Proof.
  intros H.
  repeat match goal with
         | H : Forall _ (_ :: _) |- _ => inversion_clear H
         end.
  unfold match_here, regra_milhar.
  cbn [fst atoms_of flat_map app]. change (Lit 48%N) with (Lit chr_zero).
  rewrite (match_atoms_node true Digit a) by assumption.
  rewrite match_atoms_one.
  change (b :: c :: d :: z) with ([b; c; d] ++ z).
  rewrite (match_atoms_times true Digit [b; c; d])
    by (repeat constructor; assumption).
  reflexivity.
Qed.

Lemma milhar_head (c : char) (s : str) :
  isdecimal c = false -> match_here true (fst regra_milhar) (c :: s) = None.
Proof.
  intros Hc. unfold match_here, regra_milhar.
  cbn [fst atoms_of flat_map app match_atoms node_ok]. rewrite Hc.
  reflexivity.
Qed.

Lemma re_sub_milhar (pre : str) (a b c d : char) (z : str) :
  Forall (fun x => isdecimal x = false) pre ->
  Forall (fun x => isdecimal x = true) [a; b; c; d] ->
  aplicar_regra true regra_milhar (pre ++ [a; chr_zero; b; c; d] ++ z) =
  pre ++ [a; chr_dot; b; c; d] ++ aplicar_regra true regra_milhar z.
Proof.
  intros Hpre Hd. unfold aplicar_regra, re_sub.
  rewrite sub_go_prefix_heads.
  - f_equal. rewrite (sub_go_match _ _ _ _ _ (match_here_milhar _ _ _ _ z Hd))
      by (cbn [m_len]; lia).
    reflexivity.
  - intros x s Hin. apply milhar_head.
    rewrite Forall_forall in Hpre. apply Hpre. exact Hin.
Qed.

Lemma match_here_cnpj (c : char) (z : str) :
  c <> chr_nl ->
  exists m,
    match_here true (fst regra_cnpj)
      (u"40,621" ++ c :: u"411/0001-53" ++ z) = Some m /\
    m_len m = 18.
Proof.
  intros Hc. unfold match_here, regra_cnpj. cbn [fst].
  rewrite !atoms_of_app, !atoms_of_txt.
  change (atoms_of [Plain (One Dot)]) with [One Dot].
  rewrite match_atoms_lits_hit. cbn [app].
  rewrite (match_atoms_node true Dot c)
    by (cbn [node_ok]; apply negb_true_iff, N.eqb_neq; exact Hc).
  rewrite <- (app_nil_r (lits u"411/0001-53")), match_atoms_lits_hit.
  cbn [match_atoms option_map]. eexists. split; [reflexivity|].
  vm_compute. reflexivity.
Qed.

Lemma cnpj_head (c : char) (s : str) :
  ci_eq 52%N c = false -> match_here true (fst regra_cnpj) (c :: s) = None.
Proof.
  intros Hc. unfold match_here, regra_cnpj. cbn [fst].
  rewrite !atoms_of_app, !atoms_of_txt.
  change (lits u"40,621") with (One (Lit 52%N) :: lits u"0,621").
  cbn [app match_atoms node_ok]. unfold lit_ok. rewrite Hc. reflexivity.
Qed.

Lemma re_sub_cnpj (pre : str) (c : char) (z : str) :
  Forall (fun x => ci_eq 52%N x = false) pre -> c <> chr_nl ->
  aplicar_regra true regra_cnpj
    (pre ++ u"40,621" ++ c :: u"411/0001-53" ++ z) =
  pre ++ u"49.621.411/0001-93" ++ aplicar_regra true regra_cnpj z.
Proof.
  intros Hpre Hc. unfold aplicar_regra, re_sub.
  rewrite sub_go_prefix_heads.
  - f_equal. destruct (match_here_cnpj c z Hc) as (m & Hm & Hl).
    rewrite (sub_go_match _ _ _ _ _ Hm) by lia. rewrite Hl.
    cbn [regra_cnpj snd literal expand flat_map]. rewrite app_nil_r.
    f_equal.
  - intros x s Hin. apply cnpj_head.
    rewrite Forall_forall in Hpre. apply Hpre. exact Hin.
Qed.
End CorrectionRules.

(** X15: the date rule pads a one-digit month.  When the text that
    reaches the third correction contains, after a prefix without digits,
    two digits, "/", one digit, "/" and four digits,
    [corrigir_erros_contextuais] writes a zero before the one-digit field,
    treats the rest of the text with the same rule and hands the result to
    the corrections that follow. *)
Theorem corrigir_data {U : Unicode} (t pre : str)
        (d1 d2 m y1 y2 y3 y4 : char) (z : str) :
  aplicar true (firstn 2 correcoes) t =
    pre ++ [d1; d2; chr_slash; m; chr_slash; y1; y2; y3; y4] ++ z ->
  Forall (fun c => isdecimal c = false) pre ->
  Forall (fun c => isdecimal c = true) [d1; d2; m; y1; y2; y3; y4] ->
  nth_error correcoes 2 = Some regra_data /\
  corrigir_erros_contextuais t =
    aplicar true (skipn 3 correcoes)
      (pre ++ [d1; d2; chr_slash; chr_zero; m; chr_slash; y1; y2; y3; y4] ++
       aplicar_regra true regra_data z).
Proof.
  intros Ht Hpre Hd. split; [reflexivity|].
  unfold corrigir_erros_contextuais.
  rewrite (aplicar_nth true correcoes 2 regra_data t eq_refl), Ht.
  rewrite (re_sub_data pre d1 d2 m y1 y2 y3 y4 z Hpre Hd). reflexivity.
Qed.

Lemma corrigir_data_witness :
  corrigir_erros_contextuais (U:=latin1)
    (u"Emitida em " ++ u"16/9/2024" ++ u" as") =
  aplicar (U:=latin1) true (skipn 3 correcoes)
    (u"Emitida em " ++ u"16/09/2024" ++
     aplicar_regra (U:=latin1) true regra_data u" as").
Proof.
  refine (proj2 (corrigir_data (U:=latin1) _ u"Emitida em "
                   49%N 54%N 57%N 50%N 48%N 50%N 52%N u" as" _ _ _)).
  - vm_compute. reflexivity.
  - vm_compute. repeat constructor.
  - repeat constructor.
Defined.

(** X16: the correction of decimals deletes a zero.  When the text that
    reaches the seventh correction contains, after a prefix without
    digits, a digit, a zero and three digits,
    [corrigir_erros_contextuais] replaces the zero by a dot (five digits
    become four), treats the rest of the text with the same rule and hands
    the result to the corrections that follow. *)
Theorem corrigir_milhar {U : Unicode} (t pre : str) (a b c d : char)
        (z : str) :
  aplicar true (firstn 6 correcoes) t = pre ++ [a; chr_zero; b; c; d] ++ z ->
  Forall (fun x => isdecimal x = false) pre ->
  Forall (fun x => isdecimal x = true) [a; b; c; d] ->
  nth_error correcoes 6 = Some regra_milhar /\
  corrigir_erros_contextuais t =
    aplicar true (skipn 7 correcoes)
      (pre ++ [a; chr_dot; b; c; d] ++ aplicar_regra true regra_milhar z).
Proof.
  intros Ht Hpre Hd. split; [reflexivity|].
  unfold corrigir_erros_contextuais.
  rewrite (aplicar_nth true correcoes 6 regra_milhar t eq_refl), Ht.
  rewrite (re_sub_milhar pre a b c d z Hpre Hd). reflexivity.
Qed.

Lemma corrigir_milhar_witness :
  corrigir_erros_contextuais (U:=latin1)
    (u"Total " ++ u"10500" ++ u" reais") =
  aplicar (U:=latin1) true (skipn 7 correcoes)
    (u"Total " ++ u"1.500" ++
     aplicar_regra (U:=latin1) true regra_milhar u" reais").
Proof.
  refine (proj2 (corrigir_milhar (U:=latin1) _ u"Total "
                   49%N 53%N 48%N 48%N u" reais" _ _ _)).
  - vm_compute. reflexivity.
  - vm_compute. repeat constructor.
  - repeat constructor.
Defined.

(** X17: the dot of the CNPJ correction is not escaped.  When the text
    that reaches the sixth correction contains "40,621", any one character
    other than a line break, and "411/0001-53", after a prefix in which
    nothing matches "4", [corrigir_erros_contextuais] replaces the whole by
    "49.621.411/0001-93", treats the rest of the text with the same rule
    and hands the result to the corrections that follow. *)
Theorem corrigir_cnpj {U : Unicode} (t pre : str) (c : char) (z : str) :
  aplicar true (firstn 5 correcoes) t =
    pre ++ u"40,621" ++ c :: u"411/0001-53" ++ z ->
  Forall (fun x => ci_eq 52%N x = false) pre ->
  c <> chr_nl ->
  nth_error correcoes 5 = Some regra_cnpj /\
  corrigir_erros_contextuais t =
    aplicar true (skipn 6 correcoes)
      (pre ++ u"49.621.411/0001-93" ++ aplicar_regra true regra_cnpj z).
Proof.
  intros Ht Hpre Hc. split; [reflexivity|].
  unfold corrigir_erros_contextuais.
  rewrite (aplicar_nth true correcoes 5 regra_cnpj t eq_refl), Ht.
  rewrite (re_sub_cnpj pre c z Hpre Hc). reflexivity.
Qed.

Lemma corrigir_cnpj_witness :
  corrigir_erros_contextuais (U:=latin1)
    (u"CNPJ: " ++ u"40,621" ++ chr_space :: u"411/0001-53" ++ u" fim") =
  aplicar (U:=latin1) true (skipn 6 correcoes)
    (u"CNPJ: " ++ u"49.621.411/0001-93" ++
     aplicar_regra (U:=latin1) true regra_cnpj u" fim").
Proof.
  refine (proj2 (corrigir_cnpj (U:=latin1) _ u"CNPJ: " chr_space u" fim"
                   _ _ _)).
  - vm_compute. reflexivity.
  - vm_compute. repeat constructor.
  - discriminate.
Defined.

(** ** Letter case in [validar_campos] *)

Lemma l1_lower_cases (c : char) :
  l1_lower c = c \/
  (l1_lower c = (c + 32)%N /\
   ((65 <= c <= 90)%N \/ (192 <= c <= 222)%N)).
Proof.
  unfold l1_lower, in_range.
  destruct (N.leb_spec 65 c); destruct (N.leb_spec c 90);
    destruct (N.leb_spec 192 c); destruct (N.leb_spec c 222);
    destruct (N.eqb_spec c 215); cbn [andb orb negb];
    first [left; reflexivity | right; split; [reflexivity|lia]].
Qed.

Lemma in_range_caixa (lo hi c c' : char) :
  (hi < 65)%N -> l1_lower c = l1_lower c' ->
  in_range lo hi c = in_range lo hi c'.
Proof.
  intros Hhi H. unfold in_range.
  destruct (l1_lower_cases c) as [E|[E Hc]];
    destruct (l1_lower_cases c') as [E'|[E' Hc']];
    rewrite E, E' in H;
    destruct (N.leb_spec lo c); destruct (N.leb_spec c hi);
    destruct (N.leb_spec lo c'); destruct (N.leb_spec c' hi);
    cbn [andb]; first [reflexivity | exfalso; lia].
Qed.

Lemma eqb_caixa (k c c' : char) :
  (k < 65 \/ 122 < k < 192)%N -> l1_lower c = l1_lower c' ->
  (c =? k)%N = (c' =? k)%N.
Proof.
  intros Hk H.
  destruct (l1_lower_cases c) as [E|[E Hc]];
    destruct (l1_lower_cases c') as [E'|[E' Hc']];
    rewrite E, E' in H;
    destruct (N.eqb_spec c k); destruct (N.eqb_spec c' k);
    first [reflexivity | exfalso; lia].
Qed.

Lemma isspace_caixa (c c' : char) :
  l1_lower c = l1_lower c' -> l1_isspace c = l1_isspace c'.
Proof.
  intros H. unfold l1_isspace.
  rewrite (in_range_caixa 9%N 13%N c c'), (in_range_caixa 28%N 32%N c c'),
    (eqb_caixa 133%N c c'), (eqb_caixa 160%N c c') by (assumption || lia).
  reflexivity.
Qed.

Lemma citem_ok_caixa (i : citem) (c c' : char) :
  l1_lower c = l1_lower c' ->
  citem_ok (U:=latin1) true i c = citem_ok (U:=latin1) true i c'.
Proof.
  intros H. destruct i as [p|lo hi| |];
    cbn [citem_ok lit_ok ci_eq isdecimal isspace latin1].
  - rewrite H. reflexivity.
  - apply existsb_ext_in. intros p _. rewrite H. reflexivity.
  - apply in_range_caixa; [lia|exact H].
  - apply isspace_caixa. exact H.
Qed.

Lemma node_ok_caixa (n : node) (c c' : char) :
  l1_lower c = l1_lower c' ->
  node_ok (U:=latin1) true n c = node_ok (U:=latin1) true n c'.
Proof.
  intros H. destruct n as [p| | | |items];
    cbn [node_ok lit_ok ci_eq isdecimal isspace latin1].
  - rewrite H. reflexivity.
  - f_equal. apply eqb_caixa; [left; reflexivity|exact H].
  - apply in_range_caixa; [lia|exact H].
  - apply isspace_caixa. exact H.
  - apply existsb_ext_in. intros i _. apply citem_ok_caixa. exact H.
Qed.

Lemma run_caixa (n : node) (hi : option nat) (s s' : str) :
  map l1_lower s = map l1_lower s' ->
  run (U:=latin1) true n hi s = run (U:=latin1) true n hi s'.
Proof.
  revert hi s'. induction s as [|c s IH]; intros hi [|c' s'] H;
    try discriminate; [reflexivity|].
  cbn [map] in H. injection H as Hc Hs. cbn [run].
  rewrite (node_ok_caixa n c c' Hc).
  destruct (node_ok true n c'); [|reflexivity].
  destruct hi as [[|h]|]; [reflexivity| |]; f_equal; apply IH; exact Hs.
Qed.

Lemma match_atoms_caixa (rs : list atom) (s s' : str) :
  map l1_lower s = map l1_lower s' ->
  match_atoms (U:=latin1) true rs s = match_atoms (U:=latin1) true rs s'.
Proof.
  revert s s'. induction rs as [|a rs IH]; intros s s' H; [reflexivity|].
  destruct a as [n|n lo hi]; cbn [match_atoms].
  - destruct s as [|c s]; destruct s' as [|c' s']; try discriminate;
      [reflexivity|].
    cbn [map] in H. injection H as Hc Hs.
    rewrite (node_ok_caixa n c c' Hc), (IH s s' Hs). reflexivity.
  - rewrite (run_caixa n hi s s' H). apply first_down_ext. intros j _.
    rewrite (IH (skipn j s) (skipn j s')); [reflexivity|].
    rewrite <- !skipn_map, H. reflexivity.
Qed.

Lemma re_search_caixa (r : regex) (s s' : str) :
  map l1_lower s = map l1_lower s' ->
  re_search (U:=latin1) true r s = re_search (U:=latin1) true r s'.
Proof.
  revert s'. induction s as [|c s IH]; intros [|c' s'] H; try discriminate.
  - reflexivity.
  - cbn [re_search]. unfold match_here.
    rewrite (match_atoms_caixa (atoms_of r) (c :: s) (c' :: s') H).
    destruct (match_atoms true (atoms_of r) (c' :: s')); [reflexivity|].
    cbn [map] in H. injection H as _ Hs. apply IH. exact Hs.
Qed.

Lemma validar_campos_caixa_latin1 (s s' : str) :
  map l1_lower s = map l1_lower s' ->
  validar_campos (U:=latin1) s = validar_campos (U:=latin1) s'.
Proof.
  intros H. rewrite !validar_campos_filter. f_equal.
  apply filter_ext. intros [campo padroes]. unfold campo_ausente.
  cbn [snd]. f_equal. apply existsb_ext_in. intros p _.
  apply re_search_caixa. exact H.
Qed.

Lemma validar_campos_latin1 {U : Unicode} (s : str) :
  latin1_text s = true ->
  validar_campos (U:=U) s = validar_campos (U:=latin1) s.
Proof.
  intros H. rewrite !validar_campos_filter. f_equal.
  apply filter_ext_in. intros [campo padroes] Hin. unfold campo_ausente.
  cbn [snd]. f_equal. apply existsb_ext_in. intros p Hp.
  apply re_search_latin1; [|exact H].
  assert (Hall : forallb (fun cp => forallb latin1_regex (snd cp)) campos
                 = true) by (vm_compute; reflexivity).
  rewrite forallb_forall in Hall. specialize (Hall _ Hin). cbn [snd] in Hall.
  rewrite forallb_forall in Hall. apply Hall. exact Hp.
Qed.

(** X18: the validation ignores letter case.  Two Latin-1 texts that are
    equal once lowered have the same missing fields, whatever the table of
    the interpreter outside Latin-1. *)
Theorem validar_campos_caixa {U : Unicode} (s s' : str) :
  latin1_text s = true -> latin1_text s' = true ->
  map l1_lower s = map l1_lower s' ->
  validar_campos s = validar_campos s'.
Proof.
  intros Hs Hs' H.
  rewrite (validar_campos_latin1 s Hs), (validar_campos_latin1 s' Hs').
  apply validar_campos_caixa_latin1. exact H.
Qed.

Lemma validar_campos_caixa_witness :
  validar_campos (U:=latin1) u"nfs-e SUSTENTAMAIS consultoria r$ 750,00" =
  validar_campos (U:=latin1) u"NFS-e Sustentamais Consultoria R$ 750,00".
Proof.
  apply (validar_campos_caixa (U:=latin1)); vm_compute; reflexivity.
Defined.

(** ** Pages on which nothing is found *)

(** X19: a page is returned as it was read when there is nothing to merge
    and nothing to rewrite.  When the colour conversion and the
    pre-processing succeed, the first recognition pass reads [texto], none
    of the terms "R$", "CNPJ", "CPF" occurs in it, and no pattern of the
    two rule tables is found in it, the page is processed without an
    exception and its text is [texto]; the second pass plays no part. *)
Theorem processar_pagina_sem_ocorrencia {U : Unicode} (Pagina Imagem : Type)
        (para_bgr : Pagina -> result Imagem)
        (cv2_binarizar : Imagem -> result Imagem)
        (image_to_string : Imagem -> str -> result str)
        (img : Pagina) (img_cv img_processada : Imagem) (texto : str) :
  para_bgr img = Ok img_cv ->
  cv2_binarizar img_cv = Ok img_processada ->
  image_to_string img_processada TESSERACT_CONFIG = Ok texto ->
  gatilho_numerico texto = false ->
  (forall regra, In regra correcoes ->
     re_search true (fst regra) texto = false) ->
  (forall regra, In regra estruturas ->
     re_search false (fst regra) texto = false) ->
  processar_pagina para_bgr cv2_binarizar image_to_string img = Ok texto.
Proof.
  intros H1 H2 H3 Hg Hc He. unfold processar_pagina, preprocessamento_avancado.
  rewrite H1. cbn [bind]. rewrite H2. cbn [bind]. rewrite H3. cbn [bind].
  rewrite Hg. cbn [bind]. unfold corrigir_erros_contextuais, estruturar_texto.
  rewrite (aplicar_absent true correcoes texto Hc).
  rewrite (aplicar_absent false estruturas texto He). reflexivity.
Qed.

Lemma processar_pagina_sem_ocorrencia_witness :
  processar_pagina (U:=latin1) sem_efeito sem_efeito ocr_eco u"Recibo simples"
  = Ok u"Recibo simples".
Proof.
  apply (processar_pagina_sem_ocorrencia (U:=latin1) str str sem_efeito
           sem_efeito ocr_eco u"Recibo simples" u"Recibo simples"
           u"Recibo simples" u"Recibo simples");
    try reflexivity.
  - intros regra Hin. vm_compute in Hin.
    repeat (destruct Hin as [<-|Hin]; [vm_compute; reflexivity|]).
    contradiction.
  - intros regra Hin. vm_compute in Hin.
    repeat (destruct Hin as [<-|Hin]; [vm_compute; reflexivity|]).
    contradiction.
Defined.

(** ** The merge when the second pass holds no marker *)

(** [replace] is [join] over [split]. *)
Lemma replace_go_join (old new s : str) (k : nat) :
  replace_go old new s k = str_join new (split_go old s k).
Proof.
  revert k. induction s as [|c s IH]; intros k; cbn [replace_go split_go];
    [reflexivity|].
  destruct k as [|k]; [|apply IH].
  destruct (starts_with old (c :: s)).
  - rewrite IH.
    destruct (split_go_cons old s (length old - 1)) as (seg & segs & E).
    rewrite E, str_join_cons. reflexivity.
  - rewrite IH. destruct (split_go_cons old s 0) as (seg & segs & E).
    rewrite E, str_join_head. reflexivity.
Qed.

(** The scan copies what stands before the first marker and puts the new
    text in the place of the marker. *)
Lemma replace_go_first (new a b : str) :
  occurs marcador a = false ->
  replace_go marcador new (a ++ marcador ++ b) 0 =
  a ++ new ++ replace_go marcador new b 0.
Proof.
  induction a as [|c a IH]; intros H; [reflexivity|].
  apply occurs_cons_false in H. destruct H as [Hhd Htl].
  cbn [app replace_go].
  assert (E : starts_with marcador (c :: a ++ marcador ++ b) = false).
  { destruct a as [|d a].
    - change marcador with [chr_R; chr_dollar]. cbn [app starts_with].
      destruct (chr_R =? c)%N; reflexivity.
    - rewrite <- Hhd. change marcador with [chr_R; chr_dollar].
      cbn [app starts_with]. reflexivity. }
  rewrite E, (IH Htl). reflexivity.
Qed.

(** A text that contains the marker splits at its first occurrence. *)
Lemma occurs_first (s : str) :
  occurs marcador s = true ->
  exists a b, s = a ++ marcador ++ b /\ occurs marcador a = false.
Proof.
  induction s as [|c s IH]; intros H; [discriminate|].
  destruct (starts_with marcador (c :: s)) eqn:E.
  - apply starts_with_app in E. destruct E as [rest E].
    exists [], rest. split; [exact E|reflexivity].
  - cbn [occurs] in H. rewrite E in H. cbn [orb] in H.
    destruct (IH H) as (a & b & -> & Ha). exists (c :: a), b.
    split; [reflexivity|]. cbn [occurs]. rewrite Ha, orb_false_r.
    destruct (starts_with marcador (c :: a)) eqn:E2; [|reflexivity].
    apply starts_with_app in E2. destruct E2 as [rest E2].
    change (c :: a ++ marcador ++ b) with ((c :: a) ++ marcador ++ b) in E.
    rewrite E2, <- app_assoc, starts_with_self_app in E. discriminate.
Qed.

(** C5, as the code behaves: when the primary text contains the marker and
    the secondary text does not, the second pass runs and the merge puts
    the whole secondary text in the place of every marker of the primary
    text, whose two characters are removed.  The result is the segments of
    the primary text between its markers, in their order, joined by the
    secondary text; with the first marker of the primary text between [a]
    and [b], it is [a], the secondary text and the merge of [b]; a rest
    without a marker is returned as it is. *)
Theorem mesclar_sem_marcador (texto texto_numerico : str) :
  occurs marcador texto = true ->
  occurs marcador texto_numerico = false ->
  gatilho_numerico texto = true /\
  mesclar texto texto_numerico =
    str_join texto_numerico (str_split marcador texto) /\
  (exists a b,
     texto = a ++ marcador ++ b /\ occurs marcador a = false /\
     mesclar texto texto_numerico =
       a ++ texto_numerico ++ mesclar b texto_numerico) /\
  (forall resto, occurs marcador resto = false ->
                 mesclar resto texto_numerico = resto).
Proof.
  intros Hp Hs.
  assert (E : forall s, mesclar s texto_numerico =
                        replace_go marcador texto_numerico s 0).
  { intros s. unfold mesclar. rewrite (str_split_absent _ _ Hs).
    reflexivity. }
  split; [|split; [|split]].
  - unfold gatilho_numerico. cbn [existsb]. fold marcador.
    rewrite Hp. reflexivity.
  - rewrite E. apply replace_go_join.
  - destruct (occurs_first texto Hp) as (a & b & Ht & Ha).
    exists a, b. split; [exact Ht|]. split; [exact Ha|].
    rewrite !E, Ht. apply replace_go_first. exact Ha.
  - intros resto Hr. rewrite E. apply replace_go_absent. exact Hr.
Qed.

Lemma mesclar_sem_marcador_witness :
  gatilho_numerico u"Valor R$ 10 e R$ 20" = true /\
  mesclar u"Valor R$ 10 e R$ 20" u"750,00" =
    str_join u"750,00" (str_split marcador u"Valor R$ 10 e R$ 20") /\
  (exists a b,
     u"Valor R$ 10 e R$ 20" = a ++ marcador ++ b /\
     occurs marcador a = false /\
     mesclar u"Valor R$ 10 e R$ 20" u"750,00" =
       a ++ u"750,00" ++ mesclar b u"750,00") /\
  (forall resto, occurs marcador resto = false ->
                 mesclar resto u"750,00" = resto).
Proof.
  apply (mesclar_sem_marcador u"Valor R$ 10 e R$ 20" u"750,00"); reflexivity.
Defined.
